(** * story-room: the duo session engine and the scenario script compiler

    A shallow embedding of
      - src/app/duo/room/[code]/page.tsx  (the room client [DuoRoom] and,
        after the separator, the lobby with [parseTxtToScenario]),
      - src/app/solo/page.tsx             (the single-player importer),
    and the properties of the effect ledger, the replication handlers, the
    narrative log and the script parser.

    Modelling conventions.
      - A JavaScript string is the list of its UTF-16 code units
        ([jsstring]); regular expressions without the [u] flag work on
        code units, and so do [trim], [split] and [startsWith].
      - A [number] that the code uses as an integer ([version], [ts], the
        deltas of the ledger) is a [Z]; the repository never produces
        fractions, NaN or values beyond 2^53 for them. A value of the
        ledger is such a number or, once [+] has met an inherited member,
        a string ([jsnum]).
      - An object used as a record is the finite map of its own properties
        ([gmap jsstring _]); where the code reads or writes a property under
        a name taken from a script ([next[k]], [effects[name] = ...]) the
        members inherited from [Object.prototype] are modelled too.
      - A React state cell is a field of the [Client] record and a handler
        is a function on that record; the broadcasts a handler sends are
        appended to the [outbox]. *)

From Stdlib Require Import ZArith NArith Ascii Lia.
From Stdlib Require DecimalString.
From stdpp Require Import gmap list strings sorting.

Local Open Scope Z_scope.

(** ** Strings *)

Abbreviation jsstring := (list N).

(** An ASCII literal as a JavaScript string. *)
Definition js (s : string) : jsstring :=
  (λ a, N_of_ascii a) <$> String.list_ascii_of_string s.

Definition cu (a : ascii) : N := N_of_ascii a.

(** ** Types (page.tsx, lines 9-25) *)

Inductive Turn := P1 | P2.

Global Instance Turn_eq_dec : EqDecision Turn.
Proof. solve_decision. Defined.

Record Choice := mkChoice {
  c_text : jsstring;
  c_next : jsstring;
  c_effects : option (gmap jsstring Z)
}.

Inductive Scene :=
| LinearScene (id : jsstring) (body : list jsstring) (choices : list Choice)
| Ending (id : jsstring) (title : jsstring) (body : list jsstring).

Definition scene_id (s : Scene) : jsstring :=
  match s with LinearScene i _ _ => i | Ending i _ _ => i end.

Record Scenario := mkScenario {
  sc_title : jsstring;
  sc_start : jsstring;
  sc_scenes : list Scene
}.

(** A value held in [vars]. Its declared type is [number]; at run time it
    is a string once [+] has met something that is not a number. *)
Inductive jsnum :=
| Num (z : Z)
| Txt (s : jsstring).

Record SharedState := mkShared {
  sceneId : jsstring;
  vars : gmap jsstring jsnum;
  turn : Turn;
  version : Z
}.

Record Message := mkMessage {
  m_id : jsstring;
  m_role : Turn;
  m_name : jsstring;
  m_sceneId : jsstring;
  m_choiceText : jsstring;
  m_text : jsstring;
  m_ts : Z;
  m_edited : option bool
}.

(** ** The effect ledger (page.tsx, lines 34-39; solo/page.tsx, lines 172-181) *)

(** [String(n)] for an integer [n]. *)
Definition decimal (z : Z) : jsstring :=
  js (DecimalString.NilZero.string_of_int (Z.to_int z)).

(** The text of a built-in function, as V8 and JavaScriptCore print it. *)
Definition nativeFn (name : string) : jsstring :=
  js "function " ++ js name ++ js "() { [native code] }".

(** The members every object inherits from [Object.prototype], each with
    what [String] makes of it: the built-in functions, and the accessor
    [__proto__], which yields the prototype object. *)
Definition protoMembers : list (jsstring * jsstring) :=
  [ (js "constructor", nativeFn "Object");
    (js "hasOwnProperty", nativeFn "hasOwnProperty");
    (js "isPrototypeOf", nativeFn "isPrototypeOf");
    (js "propertyIsEnumerable", nativeFn "propertyIsEnumerable");
    (js "toLocaleString", nativeFn "toLocaleString");
    (js "toString", nativeFn "toString");
    (js "valueOf", nativeFn "valueOf");
    (js "__defineGetter__", nativeFn "__defineGetter__");
    (js "__defineSetter__", nativeFn "__defineSetter__");
    (js "__lookupGetter__", nativeFn "__lookupGetter__");
    (js "__lookupSetter__", nativeFn "__lookupSetter__");
    (js "__proto__", js "[object Object]") ].

Definition inherited (k : jsstring) : option jsstring :=
  snd <$> List.find (λ e, bool_decide (e.1 = k)) protoMembers.

(** [next[k] ?? 0]: the own property, else the inherited member (never
    nullish, a string as soon as [+] touches it), else [0]. *)
Definition readOr0 (next : gmap jsstring jsnum) (k : jsstring) : jsnum :=
  match next !! k with
  | Some x => x
  | None =>
      match inherited k with
      | Some text => Txt text
      | None => Num 0
      end
  end.

(** [x + v] with [v] a number: a sum of numbers, or a concatenation. *)
Definition plus (x : jsnum) (v : Z) : jsnum :=
  match x with
  | Num a => Num (a + v)
  | Txt s => Txt (s ++ decimal v)
  end.

(** [next[k] = x]: an own property is written or created, except under
    the name [__proto__] without an own property, where the inherited
    setter drops a value that is not an object. *)
Definition assign (k : jsstring) (x : jsnum) (next : gmap jsstring jsnum)
    : gmap jsstring jsnum :=
  match next !! k with
  | Some _ => <[k := x]> next
  | None => if bool_decide (k = js "__proto__") then next else <[k := x]> next
  end.

(** One turn of the loop [next[k] = (next[k] ?? 0) + v]. *)
Definition bump (next : gmap jsstring jsnum) (kv : jsstring * Z)
    : gmap jsstring jsnum :=
  assign kv.1 (plus (readOr0 next kv.1) kv.2) next.

(** [applyEffects]: [effects] absent returns [vars] itself; otherwise the
    copy [{...vars}] is updated once per entry of [Object.entries(effects)].
    The keys of one object are distinct, so the order of the entries does
    not show in the result. *)
Definition applyEffects (vars : gmap jsstring jsnum)
    (effects : option (gmap jsstring Z)) : gmap jsstring jsnum :=
  match effects with
  | None => vars
  | Some e => foldl bump vars (map_to_list e)
  end.

(** The solo page keeps [vars] in a state cell: [applyEffects(effects)]
    returns early without an update when [effects] is absent and otherwise
    runs the same loop inside [setVars]. *)
Definition solo_applyEffects (effects : option (gmap jsstring Z))
    (vars : gmap jsstring jsnum) : gmap jsstring jsnum :=
  match effects with
  | None => vars
  | Some e => foldl bump vars (map_to_list e)
  end.

(** ** Regular expressions (the subset the parser uses)

    A backtracking matcher in continuation-passing style, following the
    order in which an ECMAScript engine explores alternatives: a greedy
    quantifier tries one more iteration before it tries the rest of the
    pattern, a lazy one the other way round, and the first success wins. *)

Inductive re :=
| Eps
| Chr (p : N → bool)
| Seq (r1 r2 : re)
| Star (greedy : bool) (r : re)
| Opt (r : re)
| Group (n : nat) (r : re)
| Eos.

Abbreviation caps := (gmap nat jsstring).

Definition orElse {A} (a b : option A) : option A :=
  match a with Some x => Some x | None => b end.

(** The loop of a quantifier [r*] or [r*?] over one more iteration [iter]
    of [r]. An iteration that consumes nothing is rejected, so a loop on
    [s] needs at most [length s] iterations and [fuel] never runs out. *)
Fixpoint starLoop {A}
    (iter : jsstring → caps → (jsstring → caps → option A) → option A)
    (greedy : bool) (k : jsstring → caps → option A)
    (fuel : nat) (s : jsstring) (c : caps) : option A :=
  match fuel with
  | O => k s c
  | S fuel' =>
      let again :=
        iter s c (λ s' c',
          if (length s' <? length s)%nat
          then starLoop iter greedy k fuel' s' c' else None) in
      if greedy then orElse again (k s c) else orElse (k s c) again
  end.

Fixpoint mtch {A} (r : re) (s : jsstring) (c : caps)
    (k : jsstring → caps → option A) {struct r} : option A :=
  match r with
  | Eps => k s c
  | Chr p =>
      match s with
      | x :: s' => if p x then k s' c else None
      | [] => None
      end
  | Seq r1 r2 => mtch r1 s c (λ s' c', mtch r2 s' c' k)
  | Star greedy r1 =>
      starLoop (λ s' c' k', mtch r1 s' c' k') greedy k (S (length s)) s c
  | Opt r1 => orElse (mtch r1 s c k) (k s c)
  | Group n r1 =>
      mtch r1 s c (λ s' c', k s' (<[n := take (length s - length s') s]> c'))
  | Eos => match s with [] => k s c | _ :: _ => None end
  end.

Definition Plus (greedy : bool) (r : re) : re := Seq r (Star greedy r).

(** [s.match(/^r/)]: the pattern is tried at index 0 only. *)
Definition match_start (r : re) (s : jsstring) : option caps :=
  mtch r s ∅ (λ _ c, Some c).

(** Character classes. *)

(** [\s], and the characters [trim] strips: WhiteSpace and LineTerminator. *)
Definition is_space (x : N) : bool :=
  ((9 <=? x) && (x <=? 13) || (x =? 32) || (x =? 160) || (x =? 5760)
   || (8192 <=? x) && (x <=? 8202) || (x =? 8232) || (x =? 8233)
   || (x =? 8239) || (x =? 8287) || (x =? 12288) || (x =? 65279))%N.

(** [.] without the [s] flag: anything but a line terminator. *)
Definition is_dot (x : N) : bool :=
  negb ((x =? 10) || (x =? 13) || (x =? 8232) || (x =? 8233))%N.

Definition is_nonspace (x : N) : bool := negb (is_space x).

Definition is_char (a : ascii) (x : N) : bool := (x =? cu a)%N.

(** [[a-zA-Z_]] *)
Definition is_name (x : N) : bool :=
  ((97 <=? x) && (x <=? 122) || (65 <=? x) && (x <=? 90) || (x =? 95))%N.

(** [\w] *)
Definition is_word (x : N) : bool :=
  (is_name x || (48 <=? x) && (x <=? 57))%N.

(** [[+-]] *)
Definition is_sign (x : N) : bool := ((x =? 43) || (x =? 45))%N.

(** [[, ]] *)
Definition is_sep (x : N) : bool := ((x =? 44) || (x =? 32))%N.

Declare Scope re_scope.
Delimit Scope re_scope with re.
Infix "·" := Seq (at level 40, left associativity) : re_scope.

(** [/^>\s*(.*?)\s*->\s*(\S+)(?:\s*\((.*?)\))?/] *)
Definition choiceRe : re :=
  (Chr (is_char ">") · Star true (Chr is_space) · Group 1 (Star false (Chr is_dot))
   · Star true (Chr is_space) · Chr (is_char "-") · Chr (is_char ">")
   · Star true (Chr is_space) · Group 2 (Plus true (Chr is_nonspace))
   · Opt (Star true (Chr is_space) · Chr (is_char "(")
          · Group 3 (Star false (Chr is_dot)) · Chr (is_char ")")))%re.

(** [/^([+-]?)([a-zA-Z_]+)/] *)
Definition effRe : re :=
  (Group 1 (Opt (Chr is_sign)) · Group 2 (Plus true (Chr is_name)))%re.

(** [/\.\w+$/] *)
Definition extRe : re :=
  (Chr (is_char ".") · Plus true (Chr is_word) · Eos)%re.

(** ** String primitives *)

Fixpoint dropSpaces (s : jsstring) : jsstring :=
  match s with
  | x :: s' => if is_space x then dropSpaces s' else s
  | [] => []
  end.

(** [s.trim()] *)
Definition trim (s : jsstring) : jsstring :=
  reverse (dropSpaces (reverse (dropSpaces s))).

(** [s.startsWith(p)] *)
Fixpoint startsWith (s p : jsstring) {struct p} : bool :=
  match p, s with
  | [], _ => true
  | a :: p', x :: s' => (x =? a)%N && startsWith s' p'
  | _ :: _, [] => false
  end.

(** [text.split(/\r?\n/)] *)
Fixpoint splitLines_go (cur s : jsstring) : list jsstring :=
  match s with
  | [] => [reverse cur]
  | x :: s' =>
      if (x =? 10)%N then reverse cur :: splitLines_go [] s'
      else if (x =? 13)%N then
        match s' with
        | y :: s'' =>
            if (y =? 10)%N then reverse cur :: splitLines_go [] s''
            else splitLines_go (x :: cur) s'
        | [] => splitLines_go (x :: cur) s'
        end
      else splitLines_go (x :: cur) s'
  end.

Definition splitLines (text : jsstring) : list jsstring := splitLines_go [] text.

(** [s.split(" ")]: a split at every single space. *)
Fixpoint splitSpace_go (cur s : jsstring) : list jsstring :=
  match s with
  | [] => [reverse cur]
  | x :: s' =>
      if (x =? 32)%N then reverse cur :: splitSpace_go [] s'
      else splitSpace_go (x :: cur) s'
  end.

Definition splitSpace (s : jsstring) : list jsstring := splitSpace_go [] s.

(** [s.split(/[, ]+/)]: a split at every maximal run of commas and spaces;
    a run at either end leaves an empty string there. *)
Fixpoint splitSep_go (insep : bool) (cur s : jsstring) : list jsstring :=
  match s with
  | [] => [reverse cur]
  | x :: s' =>
      if is_sep x then
        if insep then splitSep_go true cur s'
        else reverse cur :: splitSep_go true [] s'
      else splitSep_go false (x :: cur) s'
  end.

Definition splitSep (s : jsstring) : list jsstring := splitSep_go false [] s.

(** [s.replace(r, repl)] for a pattern without the [g] flag: the leftmost
    match is replaced. *)
Fixpoint replaceFirst (r : re) (repl s : jsstring) : jsstring :=
  match mtch r s ∅ (λ s' _, Some s') with
  | Some rest => repl ++ rest
  | None =>
      match s with
      | [] => []
      | x :: s' => x :: replaceFirst r repl s'
      end
  end.

(** ** The script parser
    (solo/page.tsx, lines 68-115 [onTxtUpload]; page.tsx, lines 437-482
    [parseTxtToScenario]; the two loops are the same text) *)

(** The title marker of an ending, U+C5D4 U+B529 followed by a colon. *)
Definition endingMarker : jsstring := [50644; 46377; 58]%N.

(** [eff.match(/^([+-]?)([a-zA-Z_]+)/)] and the assignment it feeds:
    the variable [mm[2]] and the delta [mm[1] === "-" ? -1 : 1]. *)
Definition parseEffToken (eff : jsstring) : option (jsstring * Z) :=
  match match_start effRe eff with
  | Some mm =>
      Some (default [] (mm !! 2%nat),
            if bool_decide (mm !! 1%nat = Some (js "-")) then -1 else 1)
  | None => None
  end.

(** [effects[name] = delta] on the object literal [effects]: an own
    property is written or created, except under the name [__proto__],
    where the inherited setter drops the number. *)
Definition setEffect (k : jsstring) (d : Z) (effects : gmap jsstring Z)
    : gmap jsstring Z :=
  if bool_decide (k = js "__proto__") then effects else <[k := d]> effects.

(** One turn of [for (const eff of effStr.split(/[, ]+/))]. *)
Definition effStep (effects : gmap jsstring Z) (eff : jsstring) : gmap jsstring Z :=
  match eff with
  | [] => effects
  | _ :: _ =>
      match parseEffToken eff with
      | Some (k, d) => setEffect k d effects
      | None => effects
      end
  end.

(** The [effects] object of a choice line, from the third capture. *)
Definition parseEffects (effStr : option jsstring) : gmap jsstring Z :=
  match effStr with
  | None | Some [] => ∅
  | Some s => foldl effStep ∅ (splitSep s)
  end.

(** [Object.keys(effects).length ? effects : undefined] *)
Definition nonEmptyEffects (effects : gmap jsstring Z) : option (gmap jsstring Z) :=
  if bool_decide (effects = ∅) then None else Some effects.

(** [line.match(choiceRe)] and the destructuring [[, t, next, effStr] = m]. *)
Definition matchChoice (line : jsstring) : option (jsstring * jsstring * option jsstring) :=
  match match_start choiceRe line with
  | Some m => Some (default [] (m !! 1%nat), default [] (m !! 2%nat), m !! 3%nat)
  | None => None
  end.

Definition choiceOfMatch (m : jsstring * jsstring * option jsstring) : Choice :=
  let '(t, next, effStr) := m in
  {| c_text := t; c_next := next;
     c_effects := nonEmptyEffects (parseEffects effStr) |}.

(** The loop state: the [scenes] pushed so far and the scene [current]ly
    accumulated. *)
Record pstate := mkP {
  p_scenes : list Scene;
  p_current : option Scene
}.

(** [if (current) scenes.push(current)] *)
Definition pushCurrent (st : pstate) : list Scene :=
  match p_current st with
  | Some s => p_scenes st ++ [s]
  | None => p_scenes st
  end.

(** [line.split(" ")[1]] *)
Definition markerId (line : jsstring) : jsstring :=
  default [] (splitSpace line !! 1%nat).

(** The body of [for (const raw of lines)]. *)
Definition parseLine (st : pstate) (raw : jsstring) : pstate :=
  let line := trim raw in
  match line with
  | [] => st
  | _ :: _ =>
      if startsWith line (js "#scene ") then
        mkP (pushCurrent st) (Some (LinearScene (markerId line) [] []))
      else if startsWith line (js "#ending ") then
        mkP (pushCurrent st) (Some (Ending (markerId line) [] []))
      else if startsWith line (js ">") then
        match p_current st with
        | Some (LinearScene i body choices) =>
            match matchChoice line with
            | Some m =>
                mkP (p_scenes st)
                    (Some (LinearScene i body (choices ++ [choiceOfMatch m])))
            | None => st
            end
        | _ => st
        end
      else
        match p_current st with
        | Some (Ending i title body) =>
            match title with
            | [] =>
                if startsWith line endingMarker
                then mkP (p_scenes st) (Some (Ending i line body))
                else mkP (p_scenes st) (Some (Ending i title (body ++ [line])))
            | _ :: _ => mkP (p_scenes st) (Some (Ending i title (body ++ [line])))
            end
        | Some (LinearScene i body choices) =>
            mkP (p_scenes st) (Some (LinearScene i (body ++ [line]) choices))
        | None => st
        end
  end.

(** The loop, and the push that closes the last scene. *)
Definition parseScenes (text : jsstring) : list Scene :=
  pushCurrent (foldl parseLine (mkP [] None) (splitLines text)).

(** The scenario object built after the loop. *)
Definition buildScenario (fileName text : jsstring) : Scenario :=
  let scenes := parseScenes text in
  {| sc_title := replaceFirst extRe [] fileName;
     sc_start := match scenes with
                 | s :: _ => scene_id s
                 | [] => js "start"
                 end;
     sc_scenes := scenes |}.

(** ** Validation of a scenario document
    (solo/page.tsx, lines 13-20; page.tsx, lines 28-33 and 429-436)

    [validateScenario] receives [any]: the result of [JSON.parse] or the
    object the parser built. *)

#[local] Set Warnings "-register-all".

Inductive jsval :=
| VUndefined
| VNull
| VBool (b : bool)
| VNum (z : Z)
| VStr (s : jsstring)
| VArr (items : list jsval)
| VObj (fields : gmap jsstring jsval).

(** What a failed validation throws. *)
Inductive verror :=
| ENotJson      (* "JSON이 아닙니다." *)
| ENoTitle      (* "title 누락" *)
| ENoStart      (* "start 누락" *)
| ENoScenes     (* "scenes 배열 누락" *)
| ENoStartScene (* "start와 일치하는 장면 id가 없습니다." *)
| ETypeError.   (* a property read on [null] or [undefined] *)

Inductive outcome := Accepted | Thrown (e : verror).

(** [!v] is false *)
Definition truthy (v : jsval) : bool :=
  match v with
  | VUndefined | VNull => false
  | VBool b => b
  | VNum z => negb (z =? 0)
  | VStr s => match s with [] => false | _ :: _ => true end
  | VArr _ | VObj _ => true
  end.

(** [typeof v === "object"] *)
Definition typeof_object (v : jsval) : bool :=
  match v with VNull | VArr _ | VObj _ => true | _ => false end.

(** [typeof v === "string"] *)
Definition typeof_string (v : jsval) : bool :=
  match v with VStr _ => true | _ => false end.

(** [Array.isArray(v)] *)
Definition isArray (v : jsval) : bool :=
  match v with VArr _ => true | _ => false end.

(** [v.name] for one of the names [title], [start], [scenes], [id]: a read
    on [null] or [undefined] throws, a read on a primitive or an array
    finds nothing. *)
Definition getProp (v : jsval) (name : jsstring) : option jsval :=
  match v with
  | VUndefined | VNull => None
  | VObj fields => Some (default VUndefined (fields !! name))
  | _ => Some VUndefined
  end.

(** [a === b] with [b] a string *)
Definition strictEqStr (a : jsval) (b : jsstring) : bool :=
  match a with VStr s => bool_decide (s = b) | _ => false end.

(** [scenes.some(s => s.id === start)]: [None] when a read throws before a
    match is found. *)
Fixpoint someIdIs (scenes : list jsval) (start : jsstring) : option bool :=
  match scenes with
  | [] => Some false
  | s :: rest =>
      match getProp s (js "id") with
      | None => None
      | Some i => if strictEqStr i start then Some true else someIdIs rest start
      end
  end.

Definition prop (data : jsval) (name : string) : jsval :=
  default VUndefined (getProp data (js name)).

(** The array behind [data.scenes] and the string behind [data.start],
    read after the type checks have passed. *)
Definition items (v : jsval) : list jsval :=
  match v with VArr l => l | _ => [] end.

Definition str (v : jsval) : jsstring :=
  match v with VStr s => s | _ => [] end.

Module Room.
(** The in-session loader's [validateScenario] (page.tsx, lines 28-33). *)
Definition validateScenario (data : jsval) : outcome :=
  if negb (truthy data) || negb (typeof_object data) then Thrown ENotJson
  else if negb (typeof_string (prop data "title")) then Thrown ENoTitle
  else if negb (typeof_string (prop data "start")) then Thrown ENoStart
  else if negb (isArray (prop data "scenes")) then Thrown ENoScenes
  else Accepted.
End Room.

Module Solo.
(** The solo page's [validateScenario] (solo/page.tsx, lines 13-20). *)
Definition validateScenario (data : jsval) : outcome :=
  if negb (truthy data) || negb (typeof_object data) then Thrown ENotJson
  else if negb (typeof_string (prop data "title")) then Thrown ENoTitle
  else if negb (typeof_string (prop data "start")) then Thrown ENoStart
  else if negb (isArray (prop data "scenes")) then Thrown ENoScenes
  else
    match someIdIs (items (prop data "scenes")) (str (prop data "start")) with
    | Some true => Accepted
    | Some false => Thrown ENoStartScene
    | None => Thrown ETypeError
    end.
End Solo.

Module Lobby.
(** The lobby's [validateScenario] (page.tsx, lines 429-436). *)
Definition validateScenario (data : jsval) : outcome :=
  if negb (truthy data) || negb (typeof_object data) then Thrown ENotJson
  else if negb (typeof_string (prop data "title")) then Thrown ENoTitle
  else if negb (typeof_string (prop data "start")) then Thrown ENoStart
  else if negb (isArray (prop data "scenes")) then Thrown ENoScenes
  else
    match someIdIs (items (prop data "scenes")) (str (prop data "start")) with
    | Some true => Accepted
    | Some false => Thrown ENoStartScene
    | None => Thrown ETypeError
    end.
End Lobby.

(** The object a typed scenario is at run time. *)
Definition effects_val (e : option (gmap jsstring Z)) : jsval :=
  match e with
  | None => VUndefined
  | Some m => VObj (VNum <$> m)
  end.

Definition choice_val (c : Choice) : jsval :=
  VObj (<[js "text" := VStr (c_text c)]>
        (<[js "next" := VStr (c_next c)]>
        (<[js "effects" := effects_val (c_effects c)]> ∅))).

Definition scene_val (s : Scene) : jsval :=
  match s with
  | LinearScene i body choices =>
      VObj (<[js "id" := VStr i]>
            (<[js "kind" := VStr (js "scene")]>
            (<[js "body" := VArr (VStr <$> body)]>
            (<[js "choices" := VArr (choice_val <$> choices)]> ∅))))
  | Ending i title body =>
      VObj (<[js "id" := VStr i]>
            (<[js "kind" := VStr (js "ending")]>
            (<[js "title" := VStr title]>
            (<[js "body" := VArr (VStr <$> body)]> ∅))))
  end.

Definition scenario_val (sc : Scenario) : jsval :=
  VObj (<[js "title" := VStr (sc_title sc)]>
        (<[js "start" := VStr (sc_start sc)]>
        (<[js "scenes" := VArr (scene_val <$> sc_scenes sc)]> ∅))).

(** [parseTxtToScenario(file)] of the lobby: the scenario, or what
    validation threw. *)
Definition parseTxtToScenario (fileName text : jsstring) : Scenario + verror :=
  let scenario := buildScenario fileName text in
  match Lobby.validateScenario (scenario_val scenario) with
  | Accepted => inl scenario
  | Thrown e => inr e
  end.

(** The [try] block of the solo page's [onTxtUpload(file)] up to the
    validation; on success the scenario is installed. *)
Definition onTxtUpload (fileName text : jsstring) : Scenario + verror :=
  let scenario := buildScenario fileName text in
  match Solo.validateScenario (scenario_val scenario) with
  | Accepted => inl scenario
  | Thrown e => inr e
  end.

(** ** The room client (page.tsx, lines 44-416) *)

(** What a client broadcasts on the room's channel. *)
Inductive Broadcast :=
| StateUpdate (payload : SharedState)
| StateRequest (ask : Turn)
| MsgAdd (payload : Message)
| MsgUpdate (payload : Message).

(** The state cells and refs of [DuoRoom]. [channel] says whether
    [channelRef.current] holds a channel, [redirected] is [redirectedRef],
    [pendingPeers] is the roster the debounce timer will install, and
    [outbox] collects what [channel.send] was given. *)
Record Client := mkClient {
  role : Turn;
  displayName : jsstring;
  scenario : option Scenario;
  shared : option SharedState;
  sharedRef : option SharedState;
  loading : bool;
  peers : list jsstring;
  logs : list Message;
  composerChoice : option Choice;
  composerText : jsstring;
  editingId : option jsstring;
  editingText : jsstring;
  channel : bool;
  redirected : bool;
  pendingPeers : option (list jsstring);
  outbox : list Broadcast
}.

Definition set_scenario (v : option Scenario) (st : Client) : Client :=
  mkClient (role st) (displayName st) v (shared st) (sharedRef st)
    (loading st) (peers st) (logs st) (composerChoice st) (composerText st)
    (editingId st) (editingText st) (channel st) (redirected st)
    (pendingPeers st) (outbox st).

Definition set_shared (v : option SharedState) (st : Client) : Client :=
  mkClient (role st) (displayName st) (scenario st) v (sharedRef st)
    (loading st) (peers st) (logs st) (composerChoice st) (composerText st)
    (editingId st) (editingText st) (channel st) (redirected st)
    (pendingPeers st) (outbox st).

Definition set_sharedRef (v : option SharedState) (st : Client) : Client :=
  mkClient (role st) (displayName st) (scenario st) (shared st) v
    (loading st) (peers st) (logs st) (composerChoice st) (composerText st)
    (editingId st) (editingText st) (channel st) (redirected st)
    (pendingPeers st) (outbox st).

Definition set_loading (v : bool) (st : Client) : Client :=
  mkClient (role st) (displayName st) (scenario st) (shared st)
    (sharedRef st) v (peers st) (logs st) (composerChoice st)
    (composerText st) (editingId st) (editingText st) (channel st)
    (redirected st) (pendingPeers st) (outbox st).

Definition set_peers (v : list jsstring) (st : Client) : Client :=
  mkClient (role st) (displayName st) (scenario st) (shared st)
    (sharedRef st) (loading st) v (logs st) (composerChoice st)
    (composerText st) (editingId st) (editingText st) (channel st)
    (redirected st) (pendingPeers st) (outbox st).

Definition set_logs (v : list Message) (st : Client) : Client :=
  mkClient (role st) (displayName st) (scenario st) (shared st)
    (sharedRef st) (loading st) (peers st) v (composerChoice st)
    (composerText st) (editingId st) (editingText st) (channel st)
    (redirected st) (pendingPeers st) (outbox st).

Definition set_composerChoice (v : option Choice) (st : Client) : Client :=
  mkClient (role st) (displayName st) (scenario st) (shared st)
    (sharedRef st) (loading st) (peers st) (logs st) v (composerText st)
    (editingId st) (editingText st) (channel st) (redirected st)
    (pendingPeers st) (outbox st).

Definition set_composerText (v : jsstring) (st : Client) : Client :=
  mkClient (role st) (displayName st) (scenario st) (shared st)
    (sharedRef st) (loading st) (peers st) (logs st) (composerChoice st) v
    (editingId st) (editingText st) (channel st) (redirected st)
    (pendingPeers st) (outbox st).

Definition set_editingId (v : option jsstring) (st : Client) : Client :=
  mkClient (role st) (displayName st) (scenario st) (shared st)
    (sharedRef st) (loading st) (peers st) (logs st) (composerChoice st)
    (composerText st) v (editingText st) (channel st) (redirected st)
    (pendingPeers st) (outbox st).

Definition set_editingText (v : jsstring) (st : Client) : Client :=
  mkClient (role st) (displayName st) (scenario st) (shared st)
    (sharedRef st) (loading st) (peers st) (logs st) (composerChoice st)
    (composerText st) (editingId st) v (channel st) (redirected st)
    (pendingPeers st) (outbox st).

Definition set_channel (v : bool) (st : Client) : Client :=
  mkClient (role st) (displayName st) (scenario st) (shared st)
    (sharedRef st) (loading st) (peers st) (logs st) (composerChoice st)
    (composerText st) (editingId st) (editingText st) v (redirected st)
    (pendingPeers st) (outbox st).

Definition set_redirected (v : bool) (st : Client) : Client :=
  mkClient (role st) (displayName st) (scenario st) (shared st)
    (sharedRef st) (loading st) (peers st) (logs st) (composerChoice st)
    (composerText st) (editingId st) (editingText st) (channel st) v
    (pendingPeers st) (outbox st).

Definition set_pendingPeers (v : option (list jsstring)) (st : Client) : Client :=
  mkClient (role st) (displayName st) (scenario st) (shared st)
    (sharedRef st) (loading st) (peers st) (logs st) (composerChoice st)
    (composerText st) (editingId st) (editingText st) (channel st)
    (redirected st) v (outbox st).

Definition set_outbox (v : list Broadcast) (st : Client) : Client :=
  mkClient (role st) (displayName st) (scenario st) (shared st)
    (sharedRef st) (loading st) (peers st) (logs st) (composerChoice st)
    (composerText st) (editingId st) (editingText st) (channel st)
    (redirected st) (pendingPeers st) v.

(** [channelRef.current?.send({ type: "broadcast", ... })] *)
Definition send (b : Broadcast) (st : Client) : Client :=
  if channel st then set_outbox (outbox st ++ [b]) st else st.

(** *** Derived values (lines 175-182) *)

Definition find_scene (scenes : list Scene) (i : jsstring) : option Scene :=
  List.find (λ s, bool_decide (scene_id s = i)) scenes.

(** [scenario?.scenes.find(s => s.id === shared?.sceneId)] *)
Definition currentScene (st : Client) : option Scene :=
  match scenario st, shared st with
  | Some sc, Some sh => find_scene (sc_scenes sc) (sceneId sh)
  | _, _ => None
  end.

(** [shared?.turn === role] *)
Definition isMyTurn (st : Client) : bool :=
  match shared st with
  | Some sh => bool_decide (turn sh = role st)
  | None => false
  end.

(** [s.includes(p)] *)
Fixpoint includes (s p : jsstring) : bool :=
  startsWith s p ||
  match s with
  | [] => false
  | _ :: s' => includes s' p
  end.

Definition bothPlayersConnected (st : Client) : bool :=
  existsb (λ p, includes p (js "(P1)")) (peers st) &&
  existsb (λ p, includes p (js "(P2)")) (peers st).

(** *** Transport callbacks (lines 105-166) *)

(** The updater of the [state:update] handler:
    [prev => (!prev || incoming.version > prev.version ? incoming : prev)]. *)
Definition adopt (incoming : SharedState) (prev : option SharedState) : option SharedState :=
  match prev with
  | None => Some incoming
  | Some p => if version incoming >? version p then Some incoming else Some p
  end.

Definition onStateUpdate (incoming : SharedState) (st : Client) : Client :=
  set_shared (adopt incoming (shared st)) st.

(** The [state:request] handler answers from the ref. *)
Definition onStateRequest (st : Client) : Client :=
  match sharedRef st with
  | Some cur => send (StateUpdate cur) st
  | None => st
  end.

(** [Array.prototype.sort] with the comparator [(a, b) => a.ts - b.ts]: the
    sort is stable, so the result is the one arrangement of the entries
    that is ordered by [ts] and keeps entries of equal [ts] in their
    previous order. It is computed here by insertion from the right. *)
Fixpoint insertByTs (m : Message) (l : list Message) : list Message :=
  match l with
  | [] => [m]
  | x :: l' => if m_ts m <=? m_ts x then m :: l else x :: insertByTs m l'
  end.

Definition sortByTs (l : list Message) : list Message := foldr insertByTs [] l.

(** The order of the log: [a] may stand before [b]. *)
Definition byTs (a b : Message) : Prop := m_ts a ≤ m_ts b.

(** The updater of the [msg:add] handler:
    [prev => prev.some(x => x.id === m.id) ? prev : [...prev, m].sort(...)]. *)
Definition addMessage (m : Message) (prev : list Message) : list Message :=
  if existsb (λ x, bool_decide (m_id x = m_id m)) prev then prev
  else sortByTs (prev ++ [m]).

Definition onMsgAdd (m : Message) (st : Client) : Client :=
  set_logs (addMessage m (logs st)) st.

(** [{ ...m, edited: true }] *)
Definition markEdited (m : Message) : Message :=
  mkMessage (m_id m) (m_role m) (m_name m) (m_sceneId m) (m_choiceText m)
            (m_text m) (m_ts m) (Some true).

(** The updater of the [msg:update] handler:
    [prev => prev.map(x => (x.id === m.id ? { ...m, edited: true } : x))]. *)
Definition updateMessage (m : Message) (prev : list Message) : list Message :=
  (λ x, if bool_decide (m_id x = m_id m) then markEdited m else x) <$> prev.

Definition onMsgUpdate (m : Message) (st : Client) : Client :=
  set_logs (updateMessage m (logs st)) st.

(** The presence registry: [Object.entries(channel.presenceState())], each
    role with the [name] of the identities registered under it. *)
Abbreviation Presence := (list (jsstring * list (option jsstring))).

Definition roleName (r : Turn) : jsstring :=
  match r with P1 => js "P1" | P2 => js "P2" end.

(** [state["P1"]?.length ?? 0] *)
Definition p1Count (state : Presence) : nat :=
  match List.find (λ e, bool_decide (e.1 = js "P1")) state with
  | Some e => length e.2
  | None => 0%nat
  end.

(** [n ? `${n}(${r})` : r] with [n = arr[0]?.name?.trim()] *)
Definition peerLabel (e : jsstring * list (option jsstring)) : jsstring :=
  match e.2 with
  | Some name :: _ =>
      match trim name with
      | [] => e.1
      | n => n ++ js "(" ++ e.1 ++ js ")"
      end
  | _ => e.1
  end.

(** The presence [sync] handler: the one-shot duplicate-P1 redirect, else a
    roster handed to the debounce timer. *)
Definition onPresenceSync (state : Presence) (st : Client) : Client :=
  if bool_decide (role st = P1) && (1 <? p1Count state)%nat && negb (redirected st)
  then set_redirected true st
  else set_pendingPeers (Some (peerLabel <$> state)) st.

(** The debounce timer fires: [setPeers(labels)]. *)
Definition onPeersTimer (st : Client) : Client :=
  match pendingPeers st with
  | Some labels => set_pendingPeers None (set_peers labels st)
  | None => st
  end.

(** The first state, built by P1 (line 157). *)
Definition initState (sc : Scenario) : SharedState :=
  {| sceneId := sc_start sc; vars := ∅; turn := P1; version := 1 |}.

(** The [subscribe] callback once the status is [SUBSCRIBED]. The channel
    exists only under a loaded scenario. *)
Definition onSubscribed (st : Client) : Client :=
  match scenario st with
  | None => st
  | Some sc =>
      match role st with
      | P1 =>
          match sharedRef st with
          | None =>
              let init := initState sc in
              send (StateUpdate init) (set_shared (Some init) st)
          | Some cur => send (StateUpdate cur) st
          end
      | P2 => send (StateRequest (role st)) st
      end
  end.

(** *** Local actions (lines 193-245 and the restart button, 284-294) *)

Definition openComposer (c : Choice) (st : Client) : Client :=
  if negb (isMyTurn st) then st
  else set_composerText [] (set_composerChoice (Some c) st).

Definition cancelComposer (st : Client) : Client :=
  set_composerText [] (set_composerChoice None st).

Definition opposite (t : Turn) : Turn :=
  match t with P1 => P2 | P2 => P1 end.

(** The state a resolved choice leads to (lines 218-223). *)
Definition nextState (sh : SharedState) (c : Choice) : SharedState :=
  {| sceneId := c_next c;
     vars := applyEffects (vars sh) (c_effects c);
     turn := opposite (turn sh);
     version := version sh + 1 |}.

(** [sendNarrativeAndAdvance]; [id] is what [genId()] returned and [now]
    what [Date.now()] returned for [ts]. *)
Definition sendNarrativeAndAdvance (id : jsstring) (now : Z) (st : Client) : Client :=
  match shared st, scenario st, composerChoice st with
  | Some sh, Some _, Some c =>
      let msg := {| m_id := id; m_role := role st; m_name := displayName st;
                    m_sceneId := sceneId sh; m_choiceText := c_text c;
                    m_text := trim (composerText st); m_ts := now;
                    m_edited := None |} in
      let st1 := match m_text msg with
                 | [] => st
                 | _ :: _ =>
                     send (MsgAdd msg) (set_logs (sortByTs (logs st ++ [msg])) st)
                 end in
      let next := nextState sh c in
      cancelComposer
        (send (StateUpdate next)
           (set_sharedRef (Some next) (set_shared (Some next) st1)))
  | _, _, _ => st
  end.

Definition find_message (l : list Message) (i : jsstring) : option Message :=
  List.find (λ x, bool_decide (m_id x = i)) l.

Definition startEditMessage (i : jsstring) (st : Client) : Client :=
  set_editingText (match find_message (logs st) i with
                   | Some m => m_text m
                   | None => []
                   end)
                  (set_editingId (Some i) st).

(** [{ ...original, text: editingText, edited: true }] *)
Definition editedCopy (original : Message) (text : jsstring) : Message :=
  mkMessage (m_id original) (m_role original) (m_name original)
            (m_sceneId original) (m_choiceText original) text (m_ts original)
            (Some true).

Definition saveEditMessage (st : Client) : Client :=
  match editingId st with
  | None | Some [] => st
  | Some eid =>
      match find_message (logs st) eid with
      | None => st
      | Some original =>
          let updated := editedCopy original (editingText st) in
          set_editingText []
            (set_editingId None
               (send (MsgUpdate updated)
                  (set_logs ((λ x, if bool_decide (m_id x = m_id updated)
                                   then updated else x) <$> logs st) st)))
      end
  end.

(** The [onClick] of the restart button on an ending; the button exists
    only past the loading gate, where [scenario] is set. *)
Definition restart (st : Client) : Client :=
  match scenario st with
  | None => st
  | Some sc =>
      let next := {| sceneId := sc_start sc; vars := ∅; turn := P1;
                     version := match shared st with
                                | Some sh => version sh
                                | None => 0
                                end + 1 |} in
      send (StateUpdate next)
        (set_sharedRef (Some next) (set_shared (Some next) st))
  end.

(** *** What is on screen (lines 183-190 and 248-415) *)

Inductive Screen :=
| WaitingForP2
| Connecting
| EndingScreen
| SceneScreen (choices : list Choice).

Definition screen (st : Client) : Screen :=
  if bool_decide (role st = P1) && negb (bothPlayersConnected st) then WaitingForP2
  else if loading st then Connecting
  else
    match scenario st, shared st, currentScene st with
    | Some _, Some _, Some (Ending _ _ _) => EndingScreen
    | Some _, Some _, Some (LinearScene _ _ choices) => SceneScreen choices
    | _, _, _ => Connecting
    end.

(** What the user can do; a log control names the entry it belongs to. *)
Inductive Action :=
| ClickChoice (i : nat)
| TypeComposer (t : jsstring)
| ClickSend (id : jsstring) (now : Z)
| ClickCancelComposer
| ClickRestart
| ClickEdit (i : nat)
| TypeEditing (i : nat) (t : jsstring)
| ClickSave (i : nat)
| ClickCancelEdit (i : nat).

Definition isMine (st : Client) (m : Message) : bool :=
  bool_decide (m_role m = role st) && bool_decide (m_name m = displayName st).

Definition isEditing (st : Client) (m : Message) : bool :=
  bool_decide (editingId st = Some (m_id m)).

Definition composerShown (st : Client) : bool :=
  isMyTurn st && bool_decide (composerChoice st ≠ None).

(** The controls of the log section; [None] when the control is not
    rendered. *)
Definition logControl (a : Action) (st : Client) : option Client :=
  match a with
  | ClickEdit i =>
      m ← logs st !! i;
      if isMine st m && negb (isEditing st m)
      then Some (startEditMessage (m_id m) st) else None
  | TypeEditing i t =>
      m ← logs st !! i;
      if isEditing st m then Some (set_editingText t st) else None
  | ClickSave i =>
      m ← logs st !! i;
      if isEditing st m then Some (saveEditMessage st) else None
  | ClickCancelEdit i =>
      m ← logs st !! i;
      if isEditing st m then Some (set_editingId None st) else None
  | _ => None
  end.

(** The controls of the article: the restart button of an ending, or the
    choice buttons and the composer of a scene. A disabled button does
    nothing. *)
Definition articleControl (a : Action) (st : Client) : option Client :=
  match screen st, a with
  | EndingScreen, ClickRestart => Some (restart st)
  | SceneScreen choices, ClickChoice i =>
      c ← choices !! i;
      if isMyTurn st then Some (openComposer c st) else None
  | SceneScreen _, TypeComposer t =>
      if composerShown st then Some (set_composerText t st) else None
  | SceneScreen _, ClickSend id now =>
      if composerShown st && bool_decide (trim (composerText st) ≠ [])
      then Some (sendNarrativeAndAdvance id now st) else None
  | SceneScreen _, ClickCancelComposer =>
      if composerShown st then Some (cancelComposer st) else None
  | _, _ => None
  end.

(** A user action on the current screen; off-screen controls do nothing. *)
Definition act (a : Action) (st : Client) : Client :=
  match screen st with
  | WaitingForP2 | Connecting => st
  | _ =>
      match articleControl a st with
      | Some st' => st'
      | None => default st (logControl a st)
      end
  end.

(** *** The client as a transition system *)

Inductive Input :=
| ScenarioLoaded (data : Scenario)
| ScenarioFailed
| Subscribed
| PresenceSync (state : Presence)
| PeersTimer
| RecvStateUpdate (payload : SharedState)
| RecvStateRequest
| RecvMsgAdd (payload : Message)
| RecvMsgUpdate (payload : Message)
| User (a : Action).

(** The scenario effect (lines 76-95): validate, install, stop loading. *)
Definition onScenario (data : Scenario) (st : Client) : Client :=
  match Room.validateScenario (scenario_val data) with
  | Accepted => set_loading false (set_scenario (Some data) st)
  | Thrown _ => set_loading false st
  end.

(** Callbacks of the channel run only once the channel exists. *)
Definition handle (i : Input) (st : Client) : Client :=
  match i with
  | ScenarioLoaded data => onScenario data st
  | ScenarioFailed => set_loading false st
  | User a => act a st
  | _ =>
      if channel st then
        match i with
        | Subscribed => onSubscribed st
        | PresenceSync state => onPresenceSync state st
        | PeersTimer => onPeersTimer st
        | RecvStateUpdate p => onStateUpdate p st
        | RecvStateRequest => onStateRequest st
        | RecvMsgAdd m => onMsgAdd m st
        | RecvMsgUpdate m => onMsgUpdate m st
        | _ => st
        end
      else st
  end.

(** The effects that follow a render: the ref mirrors [shared]
    (lines 71-73) and a loaded scenario opens the channel (lines 98-102). *)
Definition afterRender (st : Client) : Client :=
  set_channel (channel st || bool_decide (scenario st ≠ None))
    (set_sharedRef (shared st) st).

Definition step (i : Input) (st : Client) : Client := afterRender (handle i st).

Definition initClient (r : Turn) (name : jsstring) : Client :=
  {| role := r; displayName := name; scenario := None; shared := None;
     sharedRef := None; loading := true; peers := []; logs := [];
     composerChoice := None; composerText := []; editingId := None;
     editingText := []; channel := false; redirected := false;
     pendingPeers := None; outbox := [] |}.

Inductive reachable (r : Turn) (name : jsstring) : Client → Prop :=
| reach_init : reachable r name (initClient r name)
| reach_step i st : reachable r name st → reachable r name (step i st).

Definition versionOf (st : Client) : option Z := version <$> shared st.

(** ** A sample session, for concrete evaluations *)

Definition demoText : jsstring :=
  js "#scene start" ++ [10%N] ++ js "Hello" ++ [10%N] ++
  js "> Go left -> left (+courage)" ++ [10%N] ++
  js "#ending left" ++ [10%N] ++
  endingMarker ++ js " You win" ++ [10%N] ++ js "The end".

Definition demoScenario : Scenario := buildScenario (js "demo.txt") demoText.

Definition demoChoice : Choice :=
  {| c_text := js "Go left"; c_next := js "left";
     c_effects := Some {[js "courage" := 1]} |}.

(** The Secondary's client in a running session, at version [v] in scene
    [scene] with Primary to move. *)
Definition demoClient (scene : jsstring) (v : Z) : Client :=
  let sh := {| sceneId := scene; vars := ∅; turn := P1; version := v |} in
  {| role := P2; displayName := js "Mina"; scenario := Some demoScenario;
     shared := Some sh; sharedRef := Some sh; loading := false;
     peers := [js "Jihu(P1)"; js "Mina(P2)"]; logs := [];
     composerChoice := None; composerText := []; editingId := None;
     editingText := []; channel := true; redirected := false;
     pendingPeers := None; outbox := [] |}.

(** The Secondary's client on the ending of the sample scenario, at
    version 3, while it is the Primary's turn. *)
Definition endingClient : Client := demoClient (js "left") 3.


(** ** Auxiliary notions for the statements *)

(** The inputs that may replace the local state: resolving a choice,
    restarting from an ending, a received [state:update], and the join. *)
Definition mayChangeShared (i : Input) : bool :=
  match i with
  | User (ClickSend _ _) | User ClickRestart | RecvStateUpdate _ | Subscribed => true
  | _ => false
  end.

(** A document with the three top-level fields of the right type. *)
Definition wellShaped (data : jsval) : Prop :=
  ∃ fields t s l,
    data = VObj fields ∧ fields !! js "title" = Some (VStr t) ∧
    fields !! js "start" = Some (VStr s) ∧ fields !! js "scenes" = Some (VArr l).

(** The upload of a file named [.txt] that holds the one line
    [#scene  x]. *)
Definition blankUpload : Scenario + verror :=
  parseTxtToScenario (js ".txt") (js "#scene  x").

(** The longest prefix of [s] within the class [p], and what follows it. *)
Fixpoint takeClass (p : N → bool) (s : jsstring) : jsstring :=
  match s with
  | x :: s' => if p x then x :: takeClass p s' else []
  | [] => []
  end.

Fixpoint dropClass (p : N → bool) (s : jsstring) : jsstring :=
  match s with
  | x :: s' => if p x then dropClass p s' else s
  | [] => []
  end.

(** The tokens of an effects string that reach the pattern: the non-empty
    pieces of the split. *)
Definition effTokens (effStr : option jsstring) : list jsstring :=
  match effStr with
  | None | Some [] => []
  | Some s => List.filter (λ eff, match eff with [] => false | _ => true end) (splitSep s)
  end.

(** ** Notions for the properties of the parser *)

(** A trimmed line that opens a scene or an ending. *)
Definition isMarker (line : jsstring) : bool :=
  startsWith line (js "#scene ") || startsWith line (js "#ending ").

(** The marker lines of a script, trimmed, in order. *)
Definition markerLines (text : jsstring) : list jsstring :=
  List.filter isMarker (trim <$> splitLines text).

(** Whether a scene is an ending, and its id. *)
Definition sceneSig (s : Scene) : bool * jsstring :=
  match s with
  | LinearScene i _ _ => (false, i)
  | Ending i _ _ => (true, i)
  end.

(** The same for a marker line: the scene marker is tested first. *)
Definition markerSig (line : jsstring) : bool * jsstring :=
  (negb (startsWith line (js "#scene ")), markerId line).

(** A line as the loop stores it in a body: not blank, no white space at
    either end, neither a marker nor a choice line. *)
Definition storedLine (b : jsstring) : Prop :=
  (∃ x, head b = Some x ∧ is_space x = false) ∧
  (∃ y, last b = Some y ∧ is_space y = false) ∧
  isMarker b = false ∧ startsWith b (js ">") = false.

(** A choice as the loop builds it. *)
Definition builtChoice (c : Choice) : Prop :=
  c_next c ≠ [] ∧ Forall (λ x, is_space x = false) (c_next c) ∧
  Forall (λ x, is_dot x = true) (c_text c) ∧
  c_effects c ≠ Some ∅ ∧
  ∀ e k d, c_effects c = Some e → e !! k = Some d →
    (d = 1 ∨ d = -1) ∧ k ≠ [] ∧ Forall (λ x, is_name x = true) k.

Definition builtScene (s : Scene) : Prop :=
  match s with
  | LinearScene _ body choices =>
      Forall storedLine body ∧ Forall builtChoice choices
  | Ending _ title body =>
      Forall storedLine body ∧
      (title = [] ∨ (startsWith title endingMarker = true ∧ storedLine title))
  end.

(** The loop state holds scenes as the loop builds them. *)
Definition pstateBuilt (st : pstate) : Prop :=
  Forall builtScene (p_scenes st) ∧
  match p_current st with Some s => builtScene s | None => True end.

(** ** What a pattern may match

    The declarative reading of a pattern: [run r (s, c) (s', c')] says that
    [r] can consume a prefix of [s], leaving [s'], and turn the captures
    [c] into [c']. The matcher explores these runs in priority order. *)
Inductive run : re → jsstring * caps → jsstring * caps → Prop :=
| run_eps s c : run Eps (s, c) (s, c)
| run_chr (p : N → bool) x s c : p x = true → run (Chr p) (x :: s, c) (s, c)
| run_seq r1 r2 a b d : run r1 a b → run r2 b d → run (Seq r1 r2) a d
| run_star_stop g r a : run (Star g r) a a
| run_star_more g r a b d :
    run r a b → run (Star g r) b d → run (Star g r) a d
| run_opt_skip r a : run (Opt r) a a
| run_opt_take r a b : run r a b → run (Opt r) a b
| run_group n r s c s' c' :
    run r (s, c) (s', c') →
    run (Group n r) (s, c) (s', <[n := take (length s - length s') s]> c')
| run_eos c : run Eos ([], c) ([], c).

(** ** The solo page (solo/page.tsx, lines 23-306) *)

(** What the page shows as an error: a failed validation, or a failed
    fetch of the default scenario. *)
Inductive SoloError :=
| Invalid (e : verror)
| FetchFailed.

(** The state cells of the solo [Home]. *)
Record SoloState := mkSolo {
  s_loading : bool;
  s_error : option SoloError;
  s_scenario : option Scenario;
  s_sceneId : option jsstring;
  s_vars : gmap jsstring jsnum;
  s_history : list jsstring
}.

Definition soloInit : SoloState :=
  {| s_loading := true; s_error := None; s_scenario := None;
     s_sceneId := None; s_vars := ∅; s_history := [] |}.

(** The initial load (lines 35-64), once the document [data] has arrived
    from the cache or from the fetch: validate, install, stop loading.
    [vars] is not touched. *)
Definition soloLoaded (data : Scenario) (st : SoloState) : SoloState :=
  match Solo.validateScenario (scenario_val data) with
  | Accepted =>
      {| s_loading := false; s_error := None; s_scenario := Some data;
         s_sceneId := Some (sc_start data); s_vars := s_vars st;
         s_history := [sc_start data] |}
  | Thrown e =>
      {| s_loading := false; s_error := Some (Invalid e);
         s_scenario := s_scenario st; s_sceneId := s_sceneId st;
         s_vars := s_vars st; s_history := s_history st |}
  end.

(** The initial load or the reset when the fetch itself fails. *)
Definition soloFetchFailed (st : SoloState) : SoloState :=
  {| s_loading := false; s_error := Some FetchFailed;
     s_scenario := s_scenario st; s_sceneId := s_sceneId st;
     s_vars := s_vars st; s_history := s_history st |}.

(** [onTxtUpload] with its state updates (lines 68-128). *)
Definition soloTxtUpload (fileName text : jsstring) (st : SoloState) : SoloState :=
  match onTxtUpload fileName text with
  | inl scenario =>
      {| s_loading := s_loading st; s_error := None;
         s_scenario := Some scenario; s_sceneId := Some (sc_start scenario);
         s_vars := ∅; s_history := [sc_start scenario] |}
  | inr e =>
      {| s_loading := s_loading st; s_error := Some (Invalid e);
         s_scenario := s_scenario st; s_sceneId := s_sceneId st;
         s_vars := s_vars st; s_history := s_history st |}
  end.

(** [resetToDefault] up to its [await] (lines 147-151). *)
Definition soloResetStart (st : SoloState) : SoloState :=
  {| s_loading := true; s_error := s_error st; s_scenario := s_scenario st;
     s_sceneId := s_sceneId st; s_vars := ∅; s_history := [] |}.

(** [resetToDefault] after the default scenario has arrived
    (lines 154-164). *)
Definition soloResetDone (data : Scenario) (st : SoloState) : SoloState :=
  match Solo.validateScenario (scenario_val data) with
  | Accepted =>
      {| s_loading := false; s_error := None; s_scenario := Some data;
         s_sceneId := Some (sc_start data); s_vars := s_vars st;
         s_history := [sc_start data] |}
  | Thrown e =>
      {| s_loading := false; s_error := Some (Invalid e);
         s_scenario := s_scenario st; s_sceneId := s_sceneId st;
         s_vars := s_vars st; s_history := s_history st |}
  end.

(** [go(nextId, effects)] (lines 183-187). *)
Definition go (nextId : jsstring) (effects : option (gmap jsstring Z))
    (st : SoloState) : SoloState :=
  {| s_loading := s_loading st; s_error := s_error st;
     s_scenario := s_scenario st; s_sceneId := Some nextId;
     s_vars := solo_applyEffects effects (s_vars st);
     s_history := s_history st ++ [nextId] |}.

(** [back()] (lines 189-198): with at most one entry nothing happens;
    otherwise the last entry is popped and the scene becomes the new last
    entry. *)
Definition back (st : SoloState) : SoloState :=
  if (length (s_history st) <=? 1)%nat then st
  else
    let copy := removelast (s_history st) in
    {| s_loading := s_loading st; s_error := s_error st;
       s_scenario := s_scenario st; s_sceneId := last copy;
       s_vars := s_vars st; s_history := copy |}.

(** The restart button of an ending (line 275). *)
Definition soloRestart (sc : Scenario) (st : SoloState) : SoloState :=
  {| s_loading := s_loading st; s_error := s_error st;
     s_scenario := s_scenario st; s_sceneId := Some (sc_start sc);
     s_vars := ∅; s_history := [sc_start sc] |}.

(** What the page renders (lines 201-221): the loading notice, the error
    notice, or the scene [scenario.scenes.find(s => s.id === sceneId)].
    An empty [sceneId] counts as missing. *)
Inductive SoloScreen :=
| SoloLoading
| SoloProblem
| SoloPlaying (sc : Scenario) (scene : Scene).

Definition soloScreen (st : SoloState) : SoloScreen :=
  if s_loading st then SoloLoading
  else
    match s_error st, s_scenario st, s_sceneId st with
    | None, Some sc, Some (x :: i) =>
        match find_scene (sc_scenes sc) (x :: i) with
        | Some scene => SoloPlaying sc scene
        | None => SoloProblem
        end
    | _, _, _ => SoloProblem
    end.

(** What happens to the page: the arrival of a document or of a failure,
    and the controls of the playing screen. *)
Inductive SoloInput :=
| SLoaded (data : Scenario)
| SLoadFailed
| SResetDone (data : Scenario)
| SResetFailed
| SClickChoice (i : nat)
| SClickBack
| SClickRestart
| SClickReset
| SUploadTxt (fileName text : jsstring).

Definition soloStep (i : SoloInput) (st : SoloState) : SoloState :=
  match i with
  | SLoaded data => soloLoaded data st
  | SLoadFailed | SResetFailed => soloFetchFailed st
  | SResetDone data => soloResetDone data st
  | _ =>
      match soloScreen st with
      | SoloPlaying sc scene =>
          match i, scene with
          | SClickChoice n, LinearScene _ _ choices =>
              match choices !! n with
              | Some c => go (c_next c) (c_effects c) st
              | None => st
              end
          | SClickBack, _ => back st
          | SClickRestart, Ending _ _ _ => soloRestart sc st
          | SClickReset, _ => soloResetStart st
          | SUploadTxt fileName text, _ => soloTxtUpload fileName text st
          | _, _ => st
          end
      | _ => st
      end
  end.

Inductive soloReachable : SoloState → Prop :=
| solo_reach_init : soloReachable soloInit
| solo_reach_step i st : soloReachable st → soloReachable (soloStep i st).

(** What every reachable state of the solo page satisfies: off the loading
    and error notices the current scene is the last entry of the history,
    and an installed scenario has a scene with the id [start]. *)
Definition soloInv (st : SoloState) : Prop :=
  (s_loading st = false → s_error st = None →
   s_sceneId st = last (s_history st)) ∧
  (∀ sc, s_scenario st = Some sc →
   ∃ scene, scene ∈ sc_scenes sc ∧ scene_id scene = sc_start sc).

(** ** Notions for the properties of the ledger *)

(** The ledger as the specification words it: every key of [effects] maps
    to its value in [vars], 0 when absent, plus the delta; every other key
    keeps what it has. *)
Definition ledgerApply (vars effects : gmap jsstring Z) : gmap jsstring Z :=
  merge (λ a d, match d with
                | Some d => Some (default 0 a + d)
                | None => a
                end) vars effects.

Definition ledgerApplyOpt (vars : gmap jsstring Z)
    (effects : option (gmap jsstring Z)) : gmap jsstring Z :=
  match effects with
  | None => vars
  | Some e => ledgerApply vars e
  end.

(** No key of [effects] that [vars] lacks is the name of an inherited
    member. *)
Definition plainFor (vars effects : gmap jsstring Z) : Prop :=
  ∀ k, is_Some (effects !! k) → vars !! k = None → inherited k = None.

(** No key of the effects, when present, is the name of an inherited
    member. *)
Definition plainEffects (effects : option (gmap jsstring Z)) : Prop :=
  ∀ e k, effects = Some e → is_Some (e !! k) → inherited k = None.
(** * Properties

    ** The effect ledger *)

Lemma assign_lookup_ne (k j : jsstring) (x : jsnum) (m : gmap jsstring jsnum) :
  k ≠ j → assign j x m !! k = m !! k.
Proof.
  intros Hne. unfold assign. destruct (m !! j); [by rewrite lookup_insert_ne|].
  case_bool_decide; [done|]. by rewrite lookup_insert_ne.
Qed.

Lemma assign_lookup (k : jsstring) (x : jsnum) (m : gmap jsstring jsnum) :
  assign k x m !! k =
  match m !! k with
  | Some _ => Some x
  | None => if bool_decide (k = js "__proto__") then None else Some x
  end.
Proof.
  unfold assign. destruct (m !! k) eqn:E; [by rewrite lookup_insert_eq|].
  case_bool_decide; [done|]. by rewrite lookup_insert_eq.
Qed.

Lemma foldl_bump_notin (l : list (jsstring * Z)) (m : gmap jsstring jsnum)
    (k : jsstring) :
  k ∉ l.*1 → foldl bump m l !! k = m !! k.
Proof.
  revert m. induction l as [|[j v] l IH]; intros m Hk; simpl; [done|].
  rewrite fmap_cons, not_elem_of_cons in Hk. destruct Hk as [Hne Hk].
  rewrite IH by done. unfold bump; simpl. by apply assign_lookup_ne.
Qed.

Lemma foldl_bump_in (l : list (jsstring * Z)) (m : gmap jsstring jsnum)
    (k : jsstring) (v : Z) :
  NoDup l.*1 → (k, v) ∈ l →
  foldl bump m l !! k = assign k (plus (readOr0 m k) v) m !! k.
Proof.
  revert m. induction l as [|[j w] l IH]; intros m Hnd Hin; simpl.
  - by apply elem_of_nil in Hin.
  - rewrite fmap_cons in Hnd. apply NoDup_cons in Hnd as [Hj Hnd].
    apply elem_of_cons in Hin as [Heq|Hin].
    + inversion Heq; subst j w. by rewrite foldl_bump_notin.
    + assert (k ≠ j) as Hne.
      { intros ->. apply Hj. apply list_elem_of_fmap. by exists (j, v). }
      rewrite IH by done. rewrite !assign_lookup. unfold readOr0.
      unfold bump; simpl. by rewrite assign_lookup_ne.
Qed.

(** The ledger, key by key: a key of [effects] holds what the assignment
    [next[k] = (next[k] ?? 0) + v] leaves under it, every other key what
    it had. *)
Lemma applyEffects_lookup (vs : gmap jsstring jsnum) (e : gmap jsstring Z)
    (k : jsstring) :
  applyEffects vs (Some e) !! k =
  match e !! k with
  | Some d => assign k (plus (readOr0 vs k) d) vs !! k
  | None => vs !! k
  end.
Proof.
  unfold applyEffects. destruct (e !! k) as [d|] eqn:Hk.
  - apply foldl_bump_in; [apply NoDup_fst_map_to_list|].
    by apply elem_of_map_to_list.
  - apply foldl_bump_notin. intros Hin.
    apply list_elem_of_fmap in Hin as [[j d] [-> Hin]].
    apply elem_of_map_to_list in Hin. simpl in Hk. congruence.
Qed.

Lemma ledgerApply_lookup (vs e : gmap jsstring Z) (k : jsstring) :
  ledgerApply vs e !! k =
  match e !! k with
  | Some d => Some (default 0 (vs !! k) + d)
  | None => vs !! k
  end.
Proof.
  unfold ledgerApply. rewrite lookup_merge.
  by destruct (vs !! k), (e !! k).
Qed.

(** On names that meet no inherited member the code computes the ledger of
    the specification, and numbers stay numbers. *)
Lemma applyEffects_ledgerApply (vs e : gmap jsstring Z) :
  plainFor vs e →
  applyEffects (Num <$> vs) (Some e) = Num <$> ledgerApply vs e.
Proof.
  intros Hp. apply map_eq; intros k.
  rewrite applyEffects_lookup, !lookup_fmap, ledgerApply_lookup.
  destruct (e !! k) as [d|] eqn:Hk; [|done].
  rewrite assign_lookup. unfold readOr0. rewrite !lookup_fmap.
  destruct (vs !! k) as [a|] eqn:Hv; simpl; [done|].
  assert (inherited k = None) as Hi by (apply Hp; [by rewrite Hk|done]).
  rewrite Hi. rewrite bool_decide_false; [done|].
  intros ->. vm_compute in Hi. discriminate.
Qed.

Lemma ledgerApply_comm (vs e1 e2 : gmap jsstring Z) :
  ledgerApply (ledgerApply vs e1) e2 = ledgerApply (ledgerApply vs e2) e1.
Proof.
  apply map_eq; intros k. rewrite !ledgerApply_lookup.
  destruct (e1 !! k) as [d1|], (e2 !! k) as [d2|]; simpl; try done.
  f_equal. lia.
Qed.

Lemma ledgerApplyOpt_comm (vs : gmap jsstring Z) (e1 e2 : option (gmap jsstring Z)) :
  ledgerApplyOpt (ledgerApplyOpt vs e1) e2 = ledgerApplyOpt (ledgerApplyOpt vs e2) e1.
Proof. destruct e1, e2; try done. apply ledgerApply_comm. Qed.

Lemma foldl_ledgerApplyOpt_perm (l1 l2 : list (option (gmap jsstring Z))) :
  l1 ≡ₚ l2 → ∀ vs, foldl ledgerApplyOpt vs l1 = foldl ledgerApplyOpt vs l2.
Proof.
  induction 1 as [|e l1 l2 _ IH|e1 e2 l|l1 l2 l3 _ IH1 _ IH2]; intros vs; simpl.
  - done.
  - apply IH.
  - by rewrite ledgerApplyOpt_comm.
  - by rewrite IH1, IH2.
Qed.

Lemma plainEffects_plainFor (vs e : gmap jsstring Z) :
  plainEffects (Some e) → plainFor vs e.
Proof. intros H k Hk _. by apply (H e k). Qed.

Lemma applyEffects_ledgerApplyOpt (vs : gmap jsstring Z)
    (eo : option (gmap jsstring Z)) :
  plainEffects eo → applyEffects (Num <$> vs) eo = Num <$> ledgerApplyOpt vs eo.
Proof.
  destruct eo as [e|]; [|done]. intros H.
  by apply applyEffects_ledgerApply, plainEffects_plainFor.
Qed.

Lemma foldl_applyEffects_ledger (l : list (option (gmap jsstring Z))) :
  Forall plainEffects l →
  ∀ vs, foldl applyEffects (Num <$> vs) l = Num <$> foldl ledgerApplyOpt vs l.
Proof.
  induction 1 as [|eo l He _ IH]; intros vs; simpl; [done|].
  by rewrite applyEffects_ledgerApplyOpt, IH.
Qed.

(** C4. The ledger does not compute [vars[k]] (0 when absent) plus
    [effects[k]] for every key: the read [next[k] ?? 0] goes through the
    prototype. The choice line [> Go -> left (+constructor)] compiles to
    a choice with the effects [{constructor: 1}]; applied to the empty
    [vars], in the room and on the solo page, these leave under
    [constructor] the text of the inherited function followed by [1], not
    the number 1. *)
Theorem applyEffects_inherited_name :
  parseLine (mkP [] (Some (LinearScene (js "start") [js "Hello"] [])))
            (js "> Go -> left (+constructor)") =
    mkP [] (Some (LinearScene (js "start") [js "Hello"]
      [mkChoice (js "Go") (js "left") (Some {[js "constructor" := 1]})])) ∧
  applyEffects ∅ (Some {[js "constructor" := 1]}) =
    {[js "constructor" := Txt (js "function Object() { [native code] }1")]} ∧
  solo_applyEffects (Some {[js "constructor" := 1]}) ∅ =
    {[js "constructor" := Txt (js "function Object() { [native code] }1")]} ∧
  applyEffects ∅ (Some {[js "constructor" := 1]}) !! js "constructor"
    ≠ Some (Num (0 + 1)).
Proof.
  split; [vm_compute; reflexivity|].
  split; [vm_compute; reflexivity|].
  split; [vm_compute; reflexivity|].
  vm_compute. discriminate.
Qed.

(** C5. Ledger application does not commute on every input: on the empty
    [vars] the effects [{constructor: 1}] and [{constructor: -1}], which
    the choice tokens [+constructor] and [-constructor] compile to, leave
    a text that ends in [1-1] in one order and in [-11] in the other. *)
Theorem applyEffects_order_matters :
  parseEffects (Some (js "+constructor")) = {[js "constructor" := 1]} ∧
  parseEffects (Some (js "-constructor")) = {[js "constructor" := -1]} ∧
  applyEffects (applyEffects ∅ (Some {[js "constructor" := 1]}))
               (Some {[js "constructor" := -1]}) =
    {[js "constructor" := Txt (js "function Object() { [native code] }1-1")]} ∧
  applyEffects (applyEffects ∅ (Some {[js "constructor" := -1]}))
               (Some {[js "constructor" := 1]}) =
    {[js "constructor" := Txt (js "function Object() { [native code] }-11")]} ∧
  applyEffects (applyEffects ∅ (Some {[js "constructor" := 1]}))
               (Some {[js "constructor" := -1]})
  ≠ applyEffects (applyEffects ∅ (Some {[js "constructor" := -1]}))
                 (Some {[js "constructor" := 1]}).
Proof.
  split; [vm_compute; reflexivity|].
  split; [vm_compute; reflexivity|].
  split; [vm_compute; reflexivity|].
  split; [vm_compute; reflexivity|].
  intros H.
  apply (f_equal (λ m : gmap jsstring jsnum, m !! js "constructor")) in H.
  vm_compute in H. discriminate.
Qed.

(** ** Replication *)

Lemma shared_send b st : shared (send b st) = shared st.
Proof. unfold send. by destruct (channel st). Qed.

Lemma sharedRef_send b st : sharedRef (send b st) = sharedRef st.
Proof. unfold send. by destruct (channel st). Qed.

Lemma outbox_send b st :
  channel st = true → outbox (send b st) = outbox st ++ [b].
Proof. unfold send. by intros ->. Qed.

Lemma channel_send b st : channel (send b st) = channel st.
Proof. unfold send. by destruct (channel st) eqn:E. Qed.

Lemma set_shared_same st : set_shared (shared st) st = st.
Proof. by destruct st. Qed.

(** C1. A client that holds a state [loc] and receives [state:update] with
    payload [p] adopts [p] when [p.version > loc.version] and is left as it
    was, in every cell, when [p.version <= loc.version]. *)
Theorem state_update_strict_lww (st : Client) (loc p : SharedState) :
  channel st = true → shared st = Some loc →
  (version p > version loc →
     adopt p (Some loc) = Some p ∧
     shared (handle (RecvStateUpdate p) st) = Some p) ∧
  (version p <= version loc →
     adopt p (Some loc) = Some loc ∧
     handle (RecvStateUpdate p) st = st).
Proof.
  intros Hch Hsh. simpl. rewrite Hch. unfold onStateUpdate. rewrite Hsh. simpl.
  split; intros Hv.
  - assert ((version p >? version loc) = true) as -> by lia. done.
  - assert ((version p >? version loc) = false) as -> by lia.
    split; [done|]. rewrite <- Hsh. apply set_shared_same.
Qed.

Lemma state_update_strict_lww_witness :
  let loc := {| sceneId := js "start"; vars := ∅; turn := P1; version := 3 |} in
  let newer := {| sceneId := js "left"; vars := ∅; turn := P2; version := 4 |} in
  let stale := {| sceneId := js "left"; vars := ∅; turn := P2; version := 3 |} in
  shared (handle (RecvStateUpdate newer) (demoClient (js "start") 3)) = Some newer ∧
  handle (RecvStateUpdate stale) (demoClient (js "start") 3) = demoClient (js "start") 3.
Proof.
  intros loc newer stale. split.
  - apply (state_update_strict_lww (demoClient (js "start") 3) loc newer);
      [reflexivity | reflexivity | simpl; lia].
  - apply (state_update_strict_lww (demoClient (js "start") 3) loc stale);
      [reflexivity | reflexivity | simpl; lia].
Defined.

(** C9. A client whose state is still [null] adopts the payload of any
    [state:update] it receives, whatever the payload's version. *)
Theorem state_update_first_adoption (st : Client) (p : SharedState) :
  channel st = true → shared st = None →
  adopt p None = Some p ∧ shared (handle (RecvStateUpdate p) st) = Some p.
Proof.
  intros Hch Hsh. simpl. rewrite Hch. unfold onStateUpdate. by rewrite Hsh.
Qed.

Lemma state_update_first_adoption_witness :
  let p := {| sceneId := js "left"; vars := ∅; turn := P2; version := -7 |} in
  let st := step (ScenarioLoaded demoScenario) (initClient P2 (js "Mina")) in
  shared st = None ∧ shared (handle (RecvStateUpdate p) st) = Some p.
Proof.
  intros p st. split; [reflexivity|].
  apply (state_update_first_adoption st p); reflexivity.
Defined.

(** C2. Resolving choice [c] on the state [loc] yields exactly
    [{ sceneId: c.next, vars: applyEffects(loc.vars, c.effects),
       turn: the other role, version: loc.version + 1 }]; the client adopts
    it (state cell and ref) and broadcasts it as [state:update], after the
    [msg:add] of the narrative text when there is one. *)
Theorem turn_resolution (st : Client) (loc : SharedState) (sc : Scenario)
    (c : Choice) (id : jsstring) (now : Z) :
  shared st = Some loc → scenario st = Some sc → composerChoice st = Some c →
  channel st = true →
  let next := {| sceneId := c_next c;
                 vars := applyEffects (vars loc) (c_effects c);
                 turn := match turn loc with P1 => P2 | P2 => P1 end;
                 version := version loc + 1 |} in
  let st' := sendNarrativeAndAdvance id now st in
  shared st' = Some next ∧ sharedRef st' = Some next ∧
  ∃ pre, outbox st' = outbox st ++ pre ++ [StateUpdate next] ∧
         ∀ b, b ∈ pre → ∃ m, b = MsgAdd m.
Proof.
  intros Hsh Hsc Hc Hch next st'. subst st'.
  unfold sendNarrativeAndAdvance. rewrite Hsh, Hsc, Hc.
  change (nextState loc c) with next. cbv zeta.
  destruct (trim (composerText st)) as [|x t] eqn:Ht; simpl.
  - unfold send; simpl. rewrite Hch. simpl. repeat split.
    exists []. split; [done|]. intros b Hb. by apply elem_of_nil in Hb.
  - unfold send; simpl. rewrite Hch; simpl. rewrite Hch; simpl. repeat split.
    eexists. split; [rewrite <- app_assoc; reflexivity|].
    intros b Hb. apply list_elem_of_singleton in Hb. eauto.
Qed.

Lemma turn_resolution_witness :
  let loc := {| sceneId := js "start"; vars := {[js "courage" := Num 2]};
                turn := P1; version := 1 |} in
  let st := set_composerText (js " hello ")
              (set_composerChoice (Some demoChoice)
                 (set_shared (Some loc) (demoClient (js "start") 1))) in
  shared (sendNarrativeAndAdvance (js "id-1") 1000 st) =
  Some {| sceneId := js "left"; vars := {[js "courage" := Num 3]};
          turn := P2; version := 2 |}.
Proof.
  intros loc st.
  set (H := turn_resolution st loc demoScenario demoChoice (js "id-1") 1000
              eq_refl eq_refl eq_refl eq_refl).
  destruct H as [H _]. rewrite H. reflexivity.
Defined.

(** In every reachable state the ref mirrors the state cell and a loaded
    scenario comes with an open channel. *)
Lemma reachable_inv r name st :
  reachable r name st →
  sharedRef st = shared st ∧ (scenario st ≠ None → channel st = true).
Proof.
  induction 1 as [|i st _ _]; [by split|].
  unfold step, afterRender; simpl. split; [done|].
  intros Hsc. rewrite bool_decide_true by done. apply orb_true_r.
Qed.

(** On screen, the send button runs [sendNarrativeAndAdvance]: it exists
    only for the peer that holds the turn, with a choice picked and a
    non-blank text. *)
Lemma click_send_resolves st choices id now :
  screen st = SceneScreen choices → isMyTurn st = true →
  composerChoice st ≠ None → trim (composerText st) ≠ [] →
  act (ClickSend id now) st = sendNarrativeAndAdvance id now st.
Proof.
  intros Hs Ht Hc Htx. unfold act, articleControl, composerShown.
  rewrite Hs, Ht. by rewrite !bool_decide_true.
Qed.

(** *** Which inputs touch [shared] *)

Lemma shared_openComposer c st : shared (openComposer c st) = shared st.
Proof. unfold openComposer. by destruct (negb (isMyTurn st)). Qed.

Lemma shared_saveEditMessage st : shared (saveEditMessage st) = shared st.
Proof.
  unfold saveEditMessage. destruct (editingId st) as [[|x eid]|]; try done.
  destruct (find_message _ _); [|done]. simpl. by rewrite shared_send.
Qed.

Lemma shared_logControl a st st' :
  logControl a st = Some st' → shared st' = shared st.
Proof.
  destruct a; simpl; try done;
    (destruct (logs st !! i) as [m|]; simpl; [|done]);
    match goal with |- context [if ?b then _ else _] => destruct b end;
    intros [= <-]; try done.
  apply shared_saveEditMessage.
Qed.

Lemma shared_onStateRequest st : shared (onStateRequest st) = shared st.
Proof. unfold onStateRequest. destruct (sharedRef st); [apply shared_send|done]. Qed.

Lemma shared_onPresenceSync p st : shared (onPresenceSync p st) = shared st.
Proof. unfold onPresenceSync. by destruct (_ && _). Qed.

Lemma shared_onPeersTimer st : shared (onPeersTimer st) = shared st.
Proof. unfold onPeersTimer. by destruct (pendingPeers st). Qed.

Lemma shared_onScenario d st : shared (onScenario d st) = shared st.
Proof. unfold onScenario. by destruct (Room.validateScenario _). Qed.

Lemma shared_onSubscribed st :
  sharedRef st = shared st → shared st ≠ None →
  shared (onSubscribed st) = shared st.
Proof.
  intros Href Hsh. unfold onSubscribed.
  destruct (scenario st); [|done]. destruct (role st).
  - rewrite Href. destruct (shared st) eqn:E; [|done]. by rewrite shared_send.
  - apply shared_send.
Qed.

Lemma shared_act_other a st :
  mayChangeShared (User a) = false → shared (act a st) = shared st.
Proof.
  intros Ha. unfold act.
  destruct (screen st) eqn:Hs; try done.
  - unfold articleControl. rewrite Hs.
    destruct a; try discriminate Ha;
      (destruct (logControl _ st) as [st'|] eqn:Hl;
       [apply (shared_logControl _ _ _ Hl) | done]).
  - unfold articleControl. rewrite Hs.
    destruct a; try discriminate Ha; simpl.
    + destruct (choices !! i) as [c|]; simpl; [|done].
      destruct (isMyTurn st); [apply shared_openComposer|done].
    + by destruct (composerShown st).
    + by destruct (composerShown st).
    + destruct (logs st !! i) as [m|]; simpl; [|done].
      by destruct (_ && _).
    + destruct (logs st !! i) as [m|]; simpl; [|done].
      by destruct (isEditing st m).
    + destruct (logs st !! i) as [m|]; simpl; [|done].
      destruct (isEditing st m); [apply shared_saveEditMessage|done].
    + destruct (logs st !! i) as [m|]; simpl; [|done].
      by destruct (isEditing st m).
Qed.

Lemma shared_step_other i st :
  mayChangeShared i = false → shared (step i st) = shared st.
Proof.
  intros Hi. unfold step, afterRender; simpl.
  destruct i; try discriminate Hi; simpl;
    try (destruct (channel st); [|done]).
  - apply shared_onScenario.
  - done.
  - apply shared_onPresenceSync.
  - apply shared_onPeersTimer.
  - apply shared_onStateRequest.
  - done.
  - done.
  - by apply shared_act_other.
Qed.

(** C3, as stated, fails: the restart button of an ending is rendered for
    a peer that does not hold the turn, and clicking it replaces the state
    by one whose version is one higher. *)
Lemma restart_increments_version :
  mayChangeShared (User ClickRestart) = true ∧
  screen endingClient = EndingScreen ∧
  isMyTurn endingClient = false ∧
  versionOf endingClient = Some 3 ∧
  versionOf (step (User ClickRestart) endingClient) = Some 4 ∧
  ¬ (∀ (a : Action) (st : Client),
       (∀ id now, a ≠ ClickSend id now) →
       versionOf (step (User a) st) = versionOf st).
Proof.
  assert (versionOf (step (User ClickRestart) endingClient) = Some 4) as H4
    by (vm_compute; reflexivity).
  split; [reflexivity|]. split; [vm_compute; reflexivity|].
  split; [vm_compute; reflexivity|]. split; [vm_compute; reflexivity|].
  split; [exact H4|].
  intros H.
  assert (versionOf (step (User ClickRestart) endingClient) = versionOf endingClient) as E
    by (apply H; intros id now; discriminate).
  rewrite H4 in E. discriminate E.
Qed.

(** C3, amended. Besides turn resolution, the restart of an ending also
    sets version to the previous version plus one. The join callback
    creates the state at version 1 for a Primary that holds none and
    leaves a state that is held as it is, and every input other than
    these, and other than a received [state:update], leaves the local
    state, and so its version, as it was. *)
Theorem version_changes_only_by :
  (∀ (i : Input) (st : Client),
      mayChangeShared i = false →
      shared (step i st) = shared st ∧ versionOf (step i st) = versionOf st) ∧
  (∀ (st : Client),
      sharedRef st = shared st → shared st ≠ None →
      shared (step Subscribed st) = shared st) ∧
  (∀ (st : Client) (sc : Scenario),
      channel st = true → role st = P1 → scenario st = Some sc →
      sharedRef st = None →
      versionOf (step Subscribed st) = Some 1) ∧
  (∀ (st : Client) (sh : SharedState),
      screen st = EndingScreen → shared st = Some sh →
      versionOf (step (User ClickRestart) st) = Some (version sh + 1)) ∧
  (∀ (st : Client) (sh : SharedState) (choices : list Choice) (id : jsstring) (now : Z),
      screen st = SceneScreen choices → isMyTurn st = true →
      composerChoice st ≠ None → trim (composerText st) ≠ [] →
      shared st = Some sh →
      versionOf (step (User (ClickSend id now)) st) = Some (version sh + 1)).
Proof.
  split; [|split; [|split; [|split]]].
  - intros i st Hi. unfold versionOf. by rewrite shared_step_other.
  - intros st Href Hsh. unfold step, afterRender; simpl.
    destruct (channel st); [by apply shared_onSubscribed|done].
  - intros st sc Hch Hr Hsc Href. unfold versionOf, step, afterRender; simpl.
    rewrite Hch. unfold onSubscribed. rewrite Hsc, Hr, Href.
    by rewrite shared_send.
  - intros st sh Hs Hsh. unfold versionOf, step, afterRender; simpl.
    unfold act, articleControl. rewrite Hs. unfold restart.
    unfold screen in Hs.
    destruct (_ && _); [done|]. destruct (loading st); [done|].
    destruct (scenario st); [|done].
    rewrite shared_send. simpl. by rewrite Hsh.
  - intros st sh choices id now Hs Ht Hc Htx Hsh.
    unfold versionOf, step, afterRender; simpl.
    rewrite (click_send_resolves _ _ _ _ Hs Ht Hc Htx).
    unfold sendNarrativeAndAdvance. rewrite Hsh.
    unfold screen in Hs.
    destruct (_ && _); [done|]. destruct (loading st); [done|].
    destruct (scenario st); [|done].
    destruct (composerChoice st) as [c|]; [|done].
    simpl. by rewrite shared_send.
Qed.

Lemma version_changes_only_by_witness :
  let m := {| m_id := js "id-1"; m_role := P1; m_name := js "Jihu";
              m_sceneId := js "start"; m_choiceText := js "Go left";
              m_text := js "hello"; m_ts := 1000; m_edited := None |} in
  let joining := step (ScenarioLoaded demoScenario) (initClient P1 (js "Jihu")) in
  let sh := {| sceneId := js "start"; vars := ∅; turn := P2; version := 5 |} in
  let composing :=
    set_composerText (js "hello")
      (set_composerChoice (Some demoChoice)
         (set_sharedRef (Some sh) (set_shared (Some sh) (demoClient (js "start") 5)))) in
  versionOf (step (RecvMsgAdd m) endingClient) = versionOf endingClient ∧
  shared (step Subscribed endingClient) = shared endingClient ∧
  versionOf (step Subscribed joining) = Some 1 ∧
  versionOf (step (User ClickRestart) endingClient) = Some 4 ∧
  versionOf (step (User (ClickSend (js "id-2") 2000)) composing) = Some 6.
Proof.
  intros m joining sh composing.
  destruct version_changes_only_by as (H1 & H2 & H3 & H4 & H5).
  split; [|split; [|split; [|split]]].
  - apply (H1 (RecvMsgAdd m) endingClient). reflexivity.
  - apply (H2 endingClient); [reflexivity|done].
  - apply (H3 joining demoScenario); reflexivity.
  - exact (H4 endingClient _ ltac:(vm_compute; reflexivity) eq_refl).
  - apply (H5 composing sh [demoChoice] (js "id-2") 2000).
    + vm_compute. reflexivity.
    + vm_compute. reflexivity.
    + done.
    + vm_compute. discriminate.
    + reflexivity.
Defined.

(** ** The narrative log *)

Lemma existsb_id_true (i : jsstring) (l : list Message) :
  existsb (λ x, bool_decide (m_id x = i)) l = true ↔ ∃ x, x ∈ l ∧ m_id x = i.
Proof.
  induction l as [|y l IH]; simpl.
  - split; [done|]. intros (x & Hx & _). by apply elem_of_nil in Hx.
  - rewrite orb_true_iff, IH, bool_decide_eq_true. split.
    + intros [Hy|(x & Hx & Hi)]; [exists y|exists x]; split; try done.
      * apply elem_of_cons; by left.
      * apply elem_of_cons; by right.
    + intros (x & Hx & Hi). apply elem_of_cons in Hx as [->|Hx]; [by left|].
      right. by exists x.
Qed.

Lemma existsb_id_false (i : jsstring) (l : list Message) :
  existsb (λ x, bool_decide (m_id x = i)) l = false ↔ ∀ x, x ∈ l → m_id x ≠ i.
Proof.
  rewrite <- not_true_iff_false, existsb_id_true. split.
  - intros H x Hx Hi. apply H. by exists x.
  - intros H (x & Hx & Hi). by apply (H x).
Qed.

Lemma insertByTs_perm (m : Message) (l : list Message) : insertByTs m l ≡ₚ m :: l.
Proof.
  induction l as [|x l IH]; simpl; [done|].
  destruct (m_ts m <=? m_ts x); [done|].
  rewrite IH. apply perm_swap.
Qed.

Lemma sortByTs_perm (l : list Message) : sortByTs l ≡ₚ l.
Proof.
  induction l as [|x l IH]; simpl; [done|].
  by rewrite insertByTs_perm, IH.
Qed.

Lemma insertByTs_sorted (m : Message) (l : list Message) :
  StronglySorted byTs l → StronglySorted byTs (insertByTs m l).
Proof.
  induction 1 as [|x l Hs IH Hx]; simpl.
  - repeat constructor.
  - destruct (m_ts m <=? m_ts x) eqn:E.
    + apply Z.leb_le in E. constructor; [by constructor|].
      constructor; [done|].
      eapply Forall_impl; [exact Hx|]. unfold byTs. intros; simpl in *; lia.
    + apply Z.leb_gt in E. constructor; [done|].
      rewrite insertByTs_perm. constructor; [unfold byTs; lia|done].
Qed.

Lemma sortByTs_sorted (l : list Message) : StronglySorted byTs (sortByTs l).
Proof.
  induction l as [|x l IH]; simpl; [constructor|]. by apply insertByTs_sorted.
Qed.

Lemma insertByTs_stable (t : Z) (m : Message) (l : list Message) :
  filter (λ x, m_ts x = t) (insertByTs m l) = filter (λ x, m_ts x = t) (m :: l).
Proof.
  induction l as [|x l IH]; simpl; [done|].
  destruct (m_ts m <=? m_ts x) eqn:E; [done|]. apply Z.leb_gt in E.
  rewrite (filter_cons _ x), IH, !(filter_cons _ m), (filter_cons _ x).
  repeat case_decide; try done; lia.
Qed.

Lemma sortByTs_stable (t : Z) (l : list Message) :
  filter (λ x, m_ts x = t) (sortByTs l) = filter (λ x, m_ts x = t) l.
Proof.
  induction l as [|x l IH]; simpl; [done|].
  by rewrite insertByTs_stable, !(filter_cons _ x), IH.
Qed.

Lemma addMessage_present (m : Message) (log : list Message) :
  (∃ x, x ∈ log ∧ m_id x = m_id m) → addMessage m log = log.
Proof. intros H. unfold addMessage. apply existsb_id_true in H. by rewrite H. Qed.

Lemma addMessage_absent (m : Message) (log : list Message) :
  (∀ x, x ∈ log → m_id x ≠ m_id m) → addMessage m log = sortByTs (log ++ [m]).
Proof. intros H. unfold addMessage. apply existsb_id_false in H. by rewrite H. Qed.

Lemma addMessage_holds (m : Message) (log : list Message) :
  ∃ x, x ∈ addMessage m log ∧ m_id x = m_id m.
Proof.
  unfold addMessage.
  destruct (existsb _ log) eqn:E; [by apply existsb_id_true in E|].
  exists m. split; [|done]. rewrite sortByTs_perm. apply elem_of_app. right.
  by apply list_elem_of_singleton.
Qed.

Lemma set_logs_same (st : Client) : set_logs (logs st) st = st.
Proof. by destruct st. Qed.

Lemma handle_msg_add (st : Client) (m : Message) :
  channel st = true →
  handle (RecvMsgAdd m) st = set_logs (addMessage m (logs st)) st.
Proof. intros H. unfold handle. by rewrite H. Qed.

Lemma handle_msg_update (st : Client) (m : Message) :
  channel st = true →
  handle (RecvMsgUpdate m) st = set_logs (updateMessage m (logs st)) st.
Proof. intros H. unfold handle. by rewrite H. Qed.

Lemma updateMessage_absent (m : Message) (log : list Message) :
  (∀ x, x ∈ log → m_id x ≠ m_id m) → updateMessage m log = log.
Proof.
  unfold updateMessage. intros H. induction log as [|y log IH]; [done|].
  rewrite fmap_cons.
  rewrite bool_decide_false by (apply H, elem_of_cons; by left).
  f_equal. apply IH. intros x Hx. apply H, elem_of_cons. by right.
Qed.

(** C8. A client whose channel is open receives [msg:add]: only the log
    changes. If the log already holds an entry with the message's id the
    client stays as it is; otherwise the message is added and the whole
    log sorted by timestamp (entries of equal timestamp keep their
    order), and the log then holds exactly one entry with that id.
    Receiving the same message a second time changes nothing, and the
    effects that follow the render leave the log as the handler set it. *)
Theorem msg_add_idempotent (st : Client) (m : Message) :
  channel st = true →
  handle (RecvMsgAdd m) st = set_logs (logs (handle (RecvMsgAdd m) st)) st ∧
  ((∃ x, x ∈ logs st ∧ m_id x = m_id m) → handle (RecvMsgAdd m) st = st) ∧
  ((∀ x, x ∈ logs st → m_id x ≠ m_id m) →
     logs (handle (RecvMsgAdd m) st) = sortByTs (logs st ++ [m]) ∧
     logs (handle (RecvMsgAdd m) st) ≡ₚ logs st ++ [m] ∧
     StronglySorted byTs (logs (handle (RecvMsgAdd m) st)) ∧
     (∀ t, filter (λ x, m_ts x = t) (logs (handle (RecvMsgAdd m) st)) =
           filter (λ x, m_ts x = t) (logs st ++ [m])) ∧
     length (filter (λ x, m_id x = m_id m) (logs (handle (RecvMsgAdd m) st)))
       = 1%nat) ∧
  handle (RecvMsgAdd m) (handle (RecvMsgAdd m) st) = handle (RecvMsgAdd m) st ∧
  logs (step (RecvMsgAdd m) st) = logs (handle (RecvMsgAdd m) st).
Proof.
  intros Hch. unfold step. rewrite (handle_msg_add st m Hch).
  split; [reflexivity|]. split; [|split; [|split; [|reflexivity]]].
  - intros H. rewrite (addMessage_present _ _ H). apply set_logs_same.
  - intros H. cbn [logs set_logs]. rewrite (addMessage_absent _ _ H).
    split; [done|]. split; [apply sortByTs_perm|].
    split; [apply sortByTs_sorted|]. split; [intros t; apply sortByTs_stable|].
    rewrite sortByTs_perm, filter_app, length_app.
    assert (filter (λ x, m_id x = m_id m) (logs st) = []) as ->.
    { clear -H. induction (logs st) as [|y log IH]; [done|].
      rewrite filter_cons. rewrite decide_False by (apply H, elem_of_cons; by left).
      apply IH. intros x Hx. apply H, elem_of_cons. by right. }
    rewrite filter_cons. by case_decide.
  - rewrite handle_msg_add by done. cbn [logs set_logs].
    rewrite (addMessage_present m (addMessage m (logs st)))
      by apply addMessage_holds.
    by destruct st.
Qed.

Lemma msg_add_idempotent_witness :
  let a := {| m_id := js "a"; m_role := P1; m_name := js "Jihu";
              m_sceneId := js "start"; m_choiceText := js "Go left";
              m_text := js "first"; m_ts := 2000; m_edited := None |} in
  let b := {| m_id := js "b"; m_role := P2; m_name := js "Mina";
              m_sceneId := js "left"; m_choiceText := js "Go on";
              m_text := js "second"; m_ts := 1000; m_edited := None |} in
  let st := set_logs [a] (demoClient (js "start") 1) in
  handle (RecvMsgAdd a) st = st ∧
  logs (handle (RecvMsgAdd b) st) = [b; a].
Proof.
  intros a b st. split.
  - apply (proj1 (proj2 (msg_add_idempotent st a eq_refl))).
    exists a. split; [|done]. by apply list_elem_of_singleton.
  - destruct (proj1 (proj2 (proj2 (msg_add_idempotent st b eq_refl))))
      as [H _]; [|exact H].
    intros x Hx. apply list_elem_of_singleton in Hx. subst x. discriminate.
Defined.

(** C10. A client whose channel is open receives [msg:update]: only the
    log changes. If the log holds no entry of the message's id the client
    stays as it is (nothing is created); in general the log keeps its
    length, every entry with that id becomes the payload with [edited]
    set to true, and every other entry stays what it was. The effects
    that follow the render leave the log as the handler set it. *)
Theorem msg_update_spec (st : Client) (m : Message) :
  channel st = true →
  handle (RecvMsgUpdate m) st
    = set_logs (logs (handle (RecvMsgUpdate m) st)) st ∧
  ((∀ x, x ∈ logs st → m_id x ≠ m_id m) → handle (RecvMsgUpdate m) st = st) ∧
  length (logs (handle (RecvMsgUpdate m) st)) = length (logs st) ∧
  (∀ (i : nat) (x : Message), logs st !! i = Some x →
     (m_id x = m_id m →
        logs (handle (RecvMsgUpdate m) st) !! i =
        Some (mkMessage (m_id m) (m_role m) (m_name m) (m_sceneId m)
                (m_choiceText m) (m_text m) (m_ts m) (Some true))) ∧
     (m_id x ≠ m_id m → logs (handle (RecvMsgUpdate m) st) !! i = Some x)) ∧
  logs (step (RecvMsgUpdate m) st) = logs (handle (RecvMsgUpdate m) st).
Proof.
  intros Hch. unfold step. rewrite (handle_msg_update st m Hch).
  split; [reflexivity|]. split; [|split; [|split; [|reflexivity]]].
  - intros H. rewrite (updateMessage_absent _ _ H). apply set_logs_same.
  - cbn [logs set_logs]. unfold updateMessage. apply length_fmap.
  - intros i x Hi. cbn [logs set_logs]. unfold updateMessage.
    rewrite list_lookup_fmap, Hi. simpl. split; intros Hx.
    + by rewrite bool_decide_true.
    + by rewrite bool_decide_false.
Qed.

Lemma msg_update_spec_witness :
  let a := {| m_id := js "a"; m_role := P1; m_name := js "Jihu";
              m_sceneId := js "start"; m_choiceText := js "Go left";
              m_text := js "first"; m_ts := 2000; m_edited := None |} in
  let a' := {| m_id := js "a"; m_role := P1; m_name := js "Jihu";
               m_sceneId := js "start"; m_choiceText := js "Go left";
               m_text := js "first, reworded"; m_ts := 2000; m_edited := None |} in
  let b := {| m_id := js "b"; m_role := P2; m_name := js "Mina";
              m_sceneId := js "left"; m_choiceText := js "Go on";
              m_text := js "second"; m_ts := 1000; m_edited := None |} in
  let st1 := set_logs [b] (demoClient (js "start") 1) in
  let st2 := set_logs [b; a] (demoClient (js "start") 1) in
  handle (RecvMsgUpdate a') st1 = st1 ∧
  logs (handle (RecvMsgUpdate a') st2) !! 1%nat = Some (markEdited a') ∧
  logs (handle (RecvMsgUpdate a') st2) !! 0%nat = Some b.
Proof.
  intros a a' b st1 st2. split; [|split].
  - apply (proj1 (proj2 (msg_update_spec st1 a' eq_refl))).
    intros x Hx. apply list_elem_of_singleton in Hx. subst x. discriminate.
  - apply (proj1 (proj1 (proj2 (proj2 (proj2 (msg_update_spec st2 a' eq_refl))))
                    1%nat a eq_refl)).
    reflexivity.
  - apply (proj2 (proj1 (proj2 (proj2 (proj2 (msg_update_spec st2 a' eq_refl))))
                    0%nat b eq_refl)).
    discriminate.
Defined.

(** ** Validation *)

Lemma prop_obj (fields : gmap jsstring jsval) (name : string) :
  prop (VObj fields) name = default VUndefined (fields !! js name).
Proof. reflexivity. Qed.

Lemma room_validate_obj (fields : gmap jsstring jsval) :
  Room.validateScenario (VObj fields) = Accepted ↔ wellShaped (VObj fields).
Proof.
  unfold Room.validateScenario, wellShaped. rewrite !prop_obj.
  change (negb (truthy (VObj fields)) || negb (typeof_object (VObj fields)))
    with false. cbv iota.
  split.
  - destruct (fields !! js "title") as [[]|] eqn:Et; try done.
    destruct (fields !! js "start") as [[]|] eqn:Es; try done.
    destruct (fields !! js "scenes") as [[]|] eqn:El; try done.
    intros _. by eexists _, _, _, _.
  - intros (f & t & s & l & [= <-] & -> & -> & ->). done.
Qed.

Lemma room_validate (data : jsval) :
  Room.validateScenario data = Accepted ↔ wellShaped data.
Proof.
  destruct data as [| |b|z|s|l|fields]; try apply room_validate_obj;
    (split; [|by intros (f & t & s' & l' & [=] & _)]).
  - done.
  - done.
  - unfold Room.validateScenario; simpl. by destruct b.
  - unfold Room.validateScenario; simpl. by destruct (z =? 0).
  - unfold Room.validateScenario; simpl. by destruct s.
  - done.
Qed.

Lemma solo_lobby_validate (data : jsval) :
  Solo.validateScenario data = Lobby.validateScenario data.
Proof. reflexivity. Qed.

Lemma lobby_validate_room (data : jsval) :
  Lobby.validateScenario data = Accepted → Room.validateScenario data = Accepted.
Proof.
  unfold Lobby.validateScenario, Room.validateScenario.
  repeat match goal with |- context [if ?b then _ else _] => destruct b; try done end.
Qed.

Lemma lobby_validate_shaped (fields : gmap jsstring jsval) t s l :
  fields !! js "title" = Some (VStr t) → fields !! js "start" = Some (VStr s) →
  fields !! js "scenes" = Some (VArr l) →
  Lobby.validateScenario (VObj fields) =
  match someIdIs l s with
  | Some true => Accepted
  | Some false => Thrown ENoStartScene
  | None => Thrown ETypeError
  end.
Proof.
  intros Ht Hs Hl. unfold Lobby.validateScenario. rewrite !prop_obj.
  change (negb (truthy (VObj fields)) || negb (typeof_object (VObj fields)))
    with false. cbv iota.
  by rewrite Ht, Hs, Hl.
Qed.

Lemma scene_val_id (s : Scene) : getProp (scene_val s) (js "id") = Some (VStr (scene_id s)).
Proof. by destruct s. Qed.

Lemma someIdIs_scenes (scenes : list Scene) (start : jsstring) :
  someIdIs (scene_val <$> scenes) start =
  Some (existsb (λ s, bool_decide (scene_id s = start)) scenes).
Proof.
  induction scenes as [|s scenes IH]; [done|].
  rewrite fmap_cons. cbn [someIdIs existsb]. rewrite scene_val_id.
  cbn [strictEqStr]. by destruct (bool_decide (scene_id s = start)).
Qed.

Lemma existsb_scene_id (scenes : list Scene) (start : jsstring) :
  existsb (λ s, bool_decide (scene_id s = start)) scenes = true ↔
  ∃ s, s ∈ scenes ∧ scene_id s = start.
Proof.
  induction scenes as [|y l IH]; simpl.
  - split; [done|]. intros (x & Hx & _). by apply elem_of_nil in Hx.
  - rewrite orb_true_iff, IH, bool_decide_eq_true. split.
    + intros [Hy|(x & Hx & Hi)]; [exists y|exists x]; split; try done.
      * apply elem_of_cons; by left.
      * apply elem_of_cons; by right.
    + intros (x & Hx & Hi). apply elem_of_cons in Hx as [->|Hx]; [by left|].
      right. by exists x.
Qed.

Lemma scenario_val_fields (sc : Scenario) :
  ∃ fields, scenario_val sc = VObj fields ∧
    fields !! js "title" = Some (VStr (sc_title sc)) ∧
    fields !! js "start" = Some (VStr (sc_start sc)) ∧
    fields !! js "scenes" = Some (VArr (scene_val <$> sc_scenes sc)).
Proof.
  eexists. split; [reflexivity|].
  split; [|split].
  - by rewrite lookup_insert_eq.
  - rewrite lookup_insert_ne by (by vm_compute). by rewrite lookup_insert_eq.
  - rewrite lookup_insert_ne by (by vm_compute).
    rewrite lookup_insert_ne by (by vm_compute). by rewrite lookup_insert_eq.
Qed.

Lemma lobby_validate_scenario (sc : Scenario) :
  Lobby.validateScenario (scenario_val sc) =
  if existsb (λ s, bool_decide (scene_id s = sc_start sc)) (sc_scenes sc)
  then Accepted else Thrown ENoStartScene.
Proof.
  destruct (scenario_val_fields sc) as (fields & -> & Ht & Hs & Hl).
  rewrite (lobby_validate_shaped _ _ _ _ Ht Hs Hl), someIdIs_scenes.
  by destruct (existsb _ _).
Qed.

(** C7, as stated, fails: validation checks the type of [title], [start]
    and [scenes], not their emptiness. The in-session loader accepts the
    document with an empty title, an empty start and no scene; the import
    paths accept a document with an empty title and an empty start, and
    the lobby's parser produces one. *)
Lemma empty_fields_accepted :
  Room.validateScenario (scenario_val (mkScenario [] [] [])) = Accepted ∧
  Solo.validateScenario (scenario_val (mkScenario [] [] [LinearScene [] [] []])) = Accepted ∧
  Lobby.validateScenario (scenario_val (mkScenario [] [] [LinearScene [] [] []])) = Accepted ∧
  blankUpload = inl (mkScenario [] [] [LinearScene [] [] []]).
Proof. repeat split; vm_compute; reflexivity. Qed.

(** C7, amended. Validation rejects exactly the documents in which [title]
    is not a string, [start] is not a string or [scenes] is not an array;
    emptiness of [title] and [start] is not checked. The import paths (solo
    page and lobby, the same check) demand in addition that some scene's
    id equals [start], which the in-session loader does not: of the typed
    scenarios the loader accepts all, and the import paths accept those
    whose [start] names a scene, so they reject an empty [scenes]. *)
Theorem validateScenario_checks :
  (∀ data, Room.validateScenario data = Accepted ↔ wellShaped data) ∧
  (∀ data, Solo.validateScenario data = Lobby.validateScenario data) ∧
  (∀ data, Lobby.validateScenario data = Accepted → wellShaped data) ∧
  (∀ sc : Scenario,
     Room.validateScenario (scenario_val sc) = Accepted ∧
     (Lobby.validateScenario (scenario_val sc) = Accepted ↔
      ∃ s, s ∈ sc_scenes sc ∧ scene_id s = sc_start sc) ∧
     (sc_scenes sc = [] →
      Lobby.validateScenario (scenario_val sc) = Thrown ENoStartScene)).
Proof.
  split; [apply room_validate|]. split; [apply solo_lobby_validate|].
  split; [intros data H; by apply room_validate, lobby_validate_room|].
  intros sc. split; [|split].
  - apply room_validate. destruct (scenario_val_fields sc) as (f & -> & ? & ? & ?).
    by eexists _, _, _, _.
  - rewrite lobby_validate_scenario, <- existsb_scene_id.
    by destruct (existsb _ _).
  - intros H. by rewrite lobby_validate_scenario, H.
Qed.

Lemma validateScenario_checks_witness :
  Lobby.validateScenario (scenario_val (mkScenario (js "t") (js "start") [])) =
  Thrown ENoStartScene ∧
  wellShaped (scenario_val demoScenario).
Proof.
  split.
  - apply (proj2 (proj2 (proj2 (proj2 (proj2 validateScenario_checks))
             (mkScenario (js "t") (js "start") [])))). reflexivity.
  - apply (proj1 (proj2 (proj2 validateScenario_checks)) (scenario_val demoScenario)).
    vm_compute. reflexivity.
Defined.

(** ** The script parser *)

Lemma length_dropClass (p : N → bool) (s : jsstring) :
  (length (dropClass p s) ≤ length s)%nat.
Proof. induction s as [|x s IH]; simpl; [done|]. destruct (p x); simpl; lia. Qed.

Lemma take_dropClass (p : N → bool) (s : jsstring) :
  take (length s - length (dropClass p s)) s = takeClass p s.
Proof.
  induction s as [|x s IH]; simpl; [done|]. destruct (p x); simpl.
  - pose proof (length_dropClass p s).
    replace (S (length s) - length (dropClass p s))%nat
      with (S (length s - length (dropClass p s))) by lia.
    simpl. by rewrite IH.
  - by rewrite Nat.sub_diag.
Qed.

(** A greedy [[p]*] before a continuation that accepts whatever is left
    takes the longest run. *)
Lemma starLoop_class {A} (p : N → bool) (k : jsstring → caps → option A)
    (fuel : nat) (s : jsstring) (c : caps) :
  (∀ s' c', is_Some (k s' c')) → (length s < fuel)%nat →
  starLoop (λ s' c' k', match s' with
                        | x :: s'' => if p x then k' s'' c' else None
                        | [] => None
                        end) true k fuel s c
  = k (dropClass p s) c.
Proof.
  intros Hk. revert s. induction fuel as [|fuel IH]; intros s Hlen; [lia|].
  destruct s as [|x s]; [done|]. cbn [starLoop dropClass].
  destruct (p x); [|done].
  assert ((length s <? length (x :: s))%nat = true) as ->
    by (apply Nat.ltb_lt; simpl; lia).
  rewrite IH by (simpl in Hlen; lia).
  by destruct (Hk (dropClass p s) c) as [a ->].
Qed.

(** Fuel beyond the length of the input changes nothing: every quantifier
    of the three patterns iterates a character class, and each iteration
    consumes one character. *)
Lemma starLoop_fuel_class {A} (p : N → bool) (greedy : bool)
    (k : jsstring → caps → option A) (s : jsstring) :
  ∀ (f1 f2 : nat) (c : caps),
    (length s < f1)%nat → (length s < f2)%nat →
    starLoop (λ s' c' k', match s' with
                          | x :: s'' => if p x then k' s'' c' else None
                          | [] => None
                          end) greedy k f1 s c
    = starLoop (λ s' c' k', match s' with
                            | x :: s'' => if p x then k' s'' c' else None
                            | [] => None
                            end) greedy k f2 s c.
Proof.
  induction s as [|x s IH]; intros f1 f2 c H1 H2;
    (destruct f1 as [|f1]; [simpl in H1; lia|]);
    (destruct f2 as [|f2]; [simpl in H2; lia|]); [done|].
  cbn [starLoop]. destruct (p x); [|done].
  assert ((length s <? length (x :: s))%nat = true) as ->
    by (apply Nat.ltb_lt; simpl; lia).
  rewrite (IH f1 f2) by (simpl in *; lia). done.
Qed.

Lemma plus_class {A} (p : N → bool) (k : jsstring → caps → option A)
    (s : jsstring) (c : caps) :
  (∀ s' c', is_Some (k s' c')) →
  mtch (Plus true (Chr p)) s c k =
  match s with
  | x :: s' => if p x then k (dropClass p s') c else None
  | [] => None
  end.
Proof.
  intros Hk. unfold Plus. cbn [mtch]. destruct s as [|x s]; [done|].
  destruct (p x); [|done]. rewrite starLoop_class; [done|done|lia].
Qed.

Lemma take_class_cons (p : N → bool) (x : N) (s : jsstring) :
  p x = true →
  take (length (x :: s) - length (dropClass p s)) (x :: s) = takeClass p (x :: s).
Proof.
  intros Hx. pose proof (length_dropClass p s).
  replace (length (x :: s) - length (dropClass p s))%nat
    with (S (length s - length (dropClass p s))) by (simpl; lia).
  cbn [take takeClass]. by rewrite Hx, take_dropClass.
Qed.

Lemma is_sign_not_name (x : N) : is_sign x = true → is_name x = false.
Proof.
  unfold is_sign. intros H.
  apply orb_true_iff in H as [H|H]; apply N.eqb_eq in H; by subst x.
Qed.

(** What a token yields: a sign followed by a name, or a bare name; the
    delta is -1 exactly under a leading [-]. *)
Lemma parseEffToken_spec (eff : jsstring) :
  parseEffToken eff =
  match eff with
  | [] => None
  | x :: rest =>
      if is_sign x then
        match rest with
        | y :: _ =>
            if is_name y
            then Some (takeClass is_name rest, if (x =? 45)%N then -1 else 1)
            else None
        | [] => None
        end
      else if is_name x then Some (takeClass is_name eff, 1)
      else None
  end.
Proof.
  unfold parseEffToken, match_start, effRe.
  cbn [mtch]. destruct eff as [|x rest]; [done|].
  destruct (is_sign x) eqn:Es.
  - rewrite !plus_class by eauto. rewrite (is_sign_not_name x Es).
    destruct rest as [|y rest]; [done|].
    destruct (is_name y) eqn:Ey; [|done].
    cbn [orElse]. rewrite lookup_insert_eq.
    rewrite lookup_insert_ne by done. rewrite lookup_insert_eq.
    cbn [default]. rewrite take_class_cons by done. f_equal. f_equal.
    replace (length (x :: y :: rest) - length (y :: rest))%nat with 1%nat
      by (simpl; lia).
    cbn [take].
    destruct (x =? 45)%N eqn:E45.
    + apply N.eqb_eq in E45. subst x. by rewrite bool_decide_true.
    + apply N.eqb_neq in E45. rewrite bool_decide_false; [done|].
      intros [= H]. apply E45. vm_compute in H. congruence.
  - cbn [orElse]. rewrite !plus_class by eauto.
    destruct (is_name x) eqn:Ex; [|done].
    rewrite lookup_insert_eq. rewrite lookup_insert_ne by done.
    rewrite lookup_insert_eq. cbn [default]. rewrite take_class_cons by done.
    rewrite Nat.sub_diag. cbn [take].
    by rewrite bool_decide_false.
Qed.

Lemma effStep_parse (m : gmap jsstring Z) (eff : jsstring) :
  effStep m eff =
  match parseEffToken eff with
  | Some (k, d) => setEffect k d m
  | None => m
  end.
Proof. destruct eff; [by rewrite parseEffToken_spec|done]. Qed.

Lemma setEffect_lookup_ne (k j : jsstring) (d : Z) (m : gmap jsstring Z) :
  k ≠ j → setEffect j d m !! k = m !! k.
Proof.
  intros Hne. unfold setEffect. case_bool_decide; [done|].
  by rewrite lookup_insert_ne.
Qed.

Lemma setEffect_lookup (k : jsstring) (d : Z) (m : gmap jsstring Z) :
  k ≠ js "__proto__" → setEffect k d m !! k = Some d.
Proof.
  intros Hne. unfold setEffect. rewrite bool_decide_false by done.
  by rewrite lookup_insert_eq.
Qed.

Lemma foldl_effStep_filter (l : list jsstring) (m : gmap jsstring Z) :
  foldl effStep m l =
  foldl effStep m (List.filter (λ eff, match eff with [] => false | _ => true end) l).
Proof.
  revert m. induction l as [|[|x t] l IH]; intros m; simpl; [done|apply IH|apply IH].
Qed.

Lemma parseEffects_tokens (effStr : option jsstring) :
  parseEffects effStr = foldl effStep ∅ (effTokens effStr).
Proof.
  destruct effStr as [[|x s]|]; try done.
  unfold parseEffects, effTokens. apply foldl_effStep_filter.
Qed.

Lemma effTokens_nonempty (effStr : option jsstring) (tok : jsstring) :
  tok ∈ effTokens effStr → tok ≠ [].
Proof.
  destruct effStr as [[|x s]|]; simpl; try (intros H; by apply elem_of_nil in H).
  rewrite list_elem_of_In, filter_In. intros [_ H] ->. done.
Qed.

(** Every entry of the effects object was assigned by a token. *)
Lemma foldl_effStep_origin (l : list jsstring) (k : jsstring) (d : Z) :
  foldl effStep ∅ l !! k = Some d →
  ∃ tok, tok ∈ l ∧ parseEffToken tok = Some (k, d).
Proof.
  induction l as [|t l IH] using rev_ind; simpl; [done|].
  rewrite foldl_app; simpl. rewrite effStep_parse.
  destruct (parseEffToken t) as [[k' d']|] eqn:Et.
  - destruct (decide (k' = k)) as [->|Hne].
    + unfold setEffect. case_bool_decide.
      * intros (tok & Htok & Hp)%IH.
        exists tok. split; [|done]. apply elem_of_app. by left.
      * rewrite lookup_insert_eq. intros [= ->]. exists t. split; [|done].
        apply elem_of_app. right. by apply list_elem_of_singleton.
    + rewrite setEffect_lookup_ne by done. intros (tok & Htok & Hp)%IH.
      exists tok. split; [|done]. apply elem_of_app. by left.
  - intros (tok & Htok & Hp)%IH.
    exists tok. split; [|done]. apply elem_of_app. by left.
Qed.

(** A token's assignment stands unless a later token names the same
    variable; the name [__proto__] is never assigned. *)
Lemma foldl_effStep_last (l1 l2 : list jsstring) (tok k : jsstring) (d : Z)
    (m : gmap jsstring Z) :
  k ≠ js "__proto__" →
  parseEffToken tok = Some (k, d) →
  (∀ t d', t ∈ l2 → parseEffToken t ≠ Some (k, d')) →
  foldl effStep m (l1 ++ tok :: l2) !! k = Some d.
Proof.
  intros Hk Htok. induction l2 as [|t l2 IH] using rev_ind; intros Hl2.
  - rewrite foldl_app; simpl. rewrite effStep_parse, Htok.
    by apply setEffect_lookup.
  - rewrite app_comm_cons, app_assoc, foldl_app; simpl. rewrite effStep_parse.
    assert (foldl effStep m (l1 ++ tok :: l2) !! k = Some d) as IH'.
    { apply IH. intros t' d' Ht'. apply Hl2, elem_of_app. by left. }
    destruct (parseEffToken t) as [[k' d']|] eqn:Et; [|done].
    rewrite setEffect_lookup_ne; [done|]. intros ->.
    apply (Hl2 t d'); [|done]. apply elem_of_app. right.
    by apply list_elem_of_singleton.
Qed.

Lemma foldl_effStep_proto (l : list jsstring) (m : gmap jsstring Z) :
  m !! js "__proto__" = None → foldl effStep m l !! js "__proto__" = None.
Proof.
  revert m. induction l as [|t l IH]; intros m Hm; simpl; [done|].
  apply IH. rewrite effStep_parse.
  destruct (parseEffToken t) as [[k d]|]; [|done].
  unfold setEffect. case_bool_decide; [done|]. by rewrite lookup_insert_ne.
Qed.

Lemma startsWith_gt (line : jsstring) :
  startsWith line (js ">") = true → ∃ rest, line = 62%N :: rest.
Proof.
  destruct line as [|x rest]; [done|]. intros H. exists rest. f_equal.
  change (startsWith (x :: rest) (js ">")) with ((x =? 62)%N && true) in H.
  apply andb_true_iff in H as [H _]. by apply N.eqb_eq.
Qed.

(** A line that opens with the choice marker, while a scene is being
    accumulated. *)
Lemma parseLine_choice (st : pstate) (raw : jsstring) i body choices :
  p_current st = Some (LinearScene i body choices) →
  startsWith (trim raw) (js ">") = true →
  parseLine st raw =
  match matchChoice (trim raw) with
  | Some m =>
      mkP (p_scenes st) (Some (LinearScene i body (choices ++ [choiceOfMatch m])))
  | None => st
  end.
Proof.
  intros Hc (rest & Hl)%startsWith_gt. unfold parseLine. rewrite Hl, Hc.
  reflexivity.
Qed.

Lemma parseLine_choice_dropped (st : pstate) (raw : jsstring) :
  startsWith (trim raw) (js ">") = true → matchChoice (trim raw) = None →
  parseLine st raw = st.
Proof.
  intros (rest & Hl)%startsWith_gt Hm. unfold parseLine. rewrite Hl.
  rewrite Hl in Hm.
  change (startsWith (62%N :: rest) (js "#scene ")) with false.
  change (startsWith (62%N :: rest) (js "#ending ")) with false.
  change (startsWith (62%N :: rest) (js ">")) with true. cbv iota.
  rewrite Hm. by destruct (p_current st) as [[]|].
Qed.

(** C6. Not every matching token produces a delta for its variable. The
    token [-__proto__] matches the token pattern with a leading [-] and
    the name [__proto__], but the assignment [effects["__proto__"] = -1]
    creates no property: the choice line [> Go -> left (-__proto__)]
    compiles to a choice without effects, and next to another token the
    effects hold that token's entry only. *)
Theorem choice_line_proto_dropped :
  matchChoice (js "> Go -> left (-__proto__)") =
    Some (js "Go", js "left", Some (js "-__proto__")) ∧
  effTokens (Some (js "-__proto__")) = [js "-__proto__"] ∧
  parseEffToken (js "-__proto__") = Some (js "__proto__", -1) ∧
  parseEffects (Some (js "-__proto__")) !! js "__proto__" = None ∧
  parseLine (mkP [] (Some (LinearScene (js "start") [js "Hello"] [])))
            (js "> Go -> left (-__proto__)") =
    mkP [] (Some (LinearScene (js "start") [js "Hello"]
      [mkChoice (js "Go") (js "left") None])) ∧
  parseEffects (Some (js "+courage -__proto__")) = {[js "courage" := 1]}.
Proof. repeat split; vm_compute; reflexivity. Qed.

(** *** The parser on sample lines *)

Example choice_without_space :
  matchChoice (js "> Go -> left(+c)") = Some (js "Go", js "left(+c)", None).
Proof. vm_compute. reflexivity. Qed.

Example choice_empty_label :
  matchChoice (js ">->x") = Some ([], js "x", None).
Proof. vm_compute. reflexivity. Qed.

Example choice_broken_arrow : matchChoice (js "> a - > x") = None.
Proof. vm_compute. reflexivity. Qed.

Example tokens_of_effects :
  effTokens (Some (js " +a,, -b c ")) = [js "+a"; js "-b"; js "c"].
Proof. vm_compute. reflexivity. Qed.

Example token_deltas :
  parseEffToken (js "-fear") = Some (js "fear", -1) ∧
  parseEffToken (js "+courage") = Some (js "courage", 1) ∧
  parseEffToken (js "wisdom=3") = Some (js "wisdom", 1) ∧
  parseEffToken (js "-5") = None.
Proof. repeat split; vm_compute; reflexivity. Qed.

(** The sample script compiles to the scene and the ending it describes. *)
Example demoScenario_compiled :
  parseTxtToScenario (js "demo.txt") demoText =
  inl {| sc_title := js "demo"; sc_start := js "start";
         sc_scenes :=
           [LinearScene (js "start") [js "Hello"] [demoChoice];
            Ending (js "left") (endingMarker ++ js " You win") [js "The end"]] |}.
Proof. vm_compute. reflexivity. Qed.

(** * Further properties

    ** The parser: scenes and markers *)

Lemma isMarker_scene_or_ending (line : jsstring) :
  isMarker line = false →
  startsWith line (js "#scene ") = false ∧ startsWith line (js "#ending ") = false.
Proof. unfold isMarker. by intros [??]%orb_false_iff. Qed.

Lemma pushCurrent_mk (scenes : list Scene) (s : Scene) :
  pushCurrent (mkP scenes (Some s)) = scenes ++ [s].
Proof. reflexivity. Qed.

(** One line adds the signature of a marker line and nothing else. *)
Lemma parseLine_sigs (st : pstate) (raw : jsstring) :
  sceneSig <$> pushCurrent (parseLine st raw) =
  (sceneSig <$> pushCurrent st) ++
  (if isMarker (trim raw) then [markerSig (trim raw)] else []).
Proof.
  unfold parseLine, isMarker, markerSig.
  destruct (trim raw) as [|x line] eqn:Hl; [by rewrite app_nil_r|].
  destruct (startsWith (x :: line) (js "#scene ")) eqn:Hs.
  { rewrite pushCurrent_mk, fmap_app. done. }
  destruct (startsWith (x :: line) (js "#ending ")) eqn:He.
  { rewrite pushCurrent_mk, fmap_app. done. }
  cbn [orb negb]. rewrite app_nil_r.
  destruct (startsWith (x :: line) (js ">")).
  - destruct st as [scenes [[i body choices|i title body]|]]; try done.
    cbn [p_current p_scenes]. destruct (matchChoice _); [|done].
    unfold pushCurrent; cbn [p_current p_scenes]. by rewrite !fmap_app.
  - destruct st as [scenes [[i body choices|i title body]|]]; try done.
    + unfold pushCurrent; cbn [p_current p_scenes]. by rewrite !fmap_app.
    + cbn [p_current p_scenes].
      destruct title; [destruct (startsWith _ endingMarker)|];
        unfold pushCurrent; cbn [p_current p_scenes]; by rewrite !fmap_app.
Qed.

Lemma foldl_parseLine_sigs (lines : list jsstring) (st : pstate) :
  sceneSig <$> pushCurrent (foldl parseLine st lines) =
  (sceneSig <$> pushCurrent st) ++
  (markerSig <$> List.filter isMarker (trim <$> lines)).
Proof.
  revert st. induction lines as [|raw lines IH]; intros st; simpl.
  - by rewrite app_nil_r.
  - rewrite IH, parseLine_sigs, <- app_assoc. f_equal.
    by destruct (isMarker (trim raw)).
Qed.

Lemma parseScenes_sigs (text : jsstring) :
  sceneSig <$> parseScenes text = markerSig <$> markerLines text.
Proof. unfold parseScenes, markerLines. by rewrite foldl_parseLine_sigs. Qed.

(** X1. The compiled scenes are the marker lines of the script, one scene
    per marker line and in the same order, each with the kind and the id
    its marker line gives; so there are as many scenes as marker lines. *)
Theorem parseScenes_markers (text : jsstring) :
  sceneSig <$> parseScenes text = markerSig <$> markerLines text ∧
  length (parseScenes text) = length (markerLines text).
Proof.
  split; [apply parseScenes_sigs|].
  rewrite <- (length_fmap sceneSig), parseScenes_sigs. apply length_fmap.
Qed.

Lemma sceneSig_id (s : Scene) : (sceneSig s).2 = scene_id s.
Proof. by destruct s. Qed.

Lemma buildScenario_start (name text : jsstring) :
  sc_start (buildScenario name text) =
  match markerLines text with
  | m :: _ => markerId m
  | [] => js "start"
  end.
Proof.
  pose proof (parseScenes_sigs text) as H. unfold buildScenario; simpl.
  destruct (parseScenes text) as [|s scenes], (markerLines text) as [|m ms];
    try done.
  rewrite !fmap_cons in H. injection H as H _. rewrite <- sceneSig_id, H. done.
Qed.

(** X2. The import of a script succeeds exactly when the script has a
    marker line: without one it throws the no-start-scene error, with one
    it returns the compiled scenario, whose [start] is the id of the first
    marker line. The lobby and the solo page agree. *)
Theorem import_accepts_iff_marker (name text : jsstring) :
  onTxtUpload name text = parseTxtToScenario name text ∧
  match markerLines text with
  | [] => parseTxtToScenario name text = inr ENoStartScene
  | m :: _ =>
      parseTxtToScenario name text = inl (buildScenario name text) ∧
      sc_start (buildScenario name text) = markerId m
  end.
Proof.
  split; [reflexivity|].
  pose proof (parseScenes_sigs text) as H.
  pose proof (buildScenario_start name text) as Hs.
  unfold parseTxtToScenario. rewrite lobby_validate_scenario.
  destruct (markerLines text) as [|m ms].
  - destruct (parseScenes text) as [|s scenes] eqn:Hp; [|done].
    unfold buildScenario. rewrite Hp. done.
  - split; [|done].
    destruct (parseScenes text) as [|s scenes] eqn:Hp; [done|].
    unfold buildScenario. rewrite Hp. cbn [sc_scenes sc_start existsb].
    by rewrite bool_decide_true.
Qed.

(** ** The matcher against the declarative reading *)

Lemma orElse_Some {A} (x y : option A) (a : A) :
  orElse x y = Some a → x = Some a ∨ y = Some a.
Proof. destruct x; simpl; auto. Qed.

Lemma starLoop_sound {A} (r : re) (greedy : bool)
    (k : jsstring → caps → option A) (a : A)
    (iter : jsstring → caps → (jsstring → caps → option A) → option A) :
  (∀ s c k', iter s c k' = Some a →
     ∃ s' c', run r (s, c) (s', c') ∧ k' s' c' = Some a) →
  ∀ fuel s c, starLoop iter greedy k fuel s c = Some a →
     ∃ s' c', run (Star greedy r) (s, c) (s', c') ∧ k s' c' = Some a.
Proof.
  intros Hiter. induction fuel as [|fuel IH]; intros s c H; cbn [starLoop] in H.
  - exists s, c. split; [constructor|done].
  - assert (iter s c (λ s' c', if (length s' <? length s)%nat
                               then starLoop iter greedy k fuel s' c'
                               else None) = Some a ∨ k s c = Some a) as [Hi|Hk].
    { destruct greedy; apply orElse_Some in H; tauto. }
    + apply Hiter in Hi as (s1 & c1 & Hr & Hl).
      destruct (length s1 <? length s)%nat; [|done].
      apply IH in Hl as (s' & c' & Hs & Hk). exists s', c'. split; [|done].
      by eapply run_star_more.
    + exists s, c. split; [constructor|done].
Qed.

(** Whatever the matcher returns is the result of a run of the pattern
    followed by the continuation. *)
Lemma mtch_sound {A} (r : re) :
  ∀ (s : jsstring) (c : caps) (k : jsstring → caps → option A) (a : A),
    mtch r s c k = Some a →
    ∃ s' c', run r (s, c) (s', c') ∧ k s' c' = Some a.
Proof.
  induction r as [|p|r1 IH1 r2 IH2|g r IH|r IH|n r IH|]; intros s c k a H;
    cbn [mtch] in H.
  - exists s, c. split; [constructor|done].
  - destruct s as [|x s]; [done|]. destruct (p x) eqn:Hp; [|done].
    exists s, c. split; [by constructor|done].
  - apply IH1 in H as (s1 & c1 & Hr1 & H). apply IH2 in H as (s2 & c2 & Hr2 & H).
    exists s2, c2. split; [by econstructor|done].
  - eapply starLoop_sound; [|exact H]. intros s0 c0 k' H0. by apply IH.
  - apply orElse_Some in H as [H|H].
    + apply IH in H as (s' & c' & Hr & H). exists s', c'.
      split; [by constructor|done].
    + exists s, c. split; [constructor|done].
  - apply IH in H as (s' & c' & Hr & H). eexists s', _.
    split; [by constructor|done].
  - destruct s; [|done]. exists [], c. split; [constructor|done].
Qed.

Lemma run_star_class (p : N → bool) (g : bool) (a b : jsstring * caps) :
  run (Star g (Chr p)) a b →
  b.2 = a.2 ∧ ∃ w, a.1 = w ++ b.1 ∧ Forall (λ x, p x = true) w.
Proof.
  remember (Star g (Chr p)) as r eqn:Hr. intros H.
  induction H as [| | | |g' r' a b d H1 _ H2 IH| | | |]; try discriminate Hr.
  - split; [done|]. by exists [].
  - injection Hr as -> ->. destruct (IH eq_refl) as (Hc & w & Hw & Hp).
    inversion H1; subst. simpl in *. split; [done|].
    exists (x :: w). split; [by rewrite Hw|by constructor].
Qed.

Lemma take_consumed (w s' : jsstring) :
  take (length (w ++ s') - length s') (w ++ s') = w.
Proof.
  rewrite length_app. replace (length w + length s' - length s')%nat
    with (length w) by lia.
  by rewrite take_app_length.
Qed.

Lemma run_seq_inv r1 r2 a d :
  run (Seq r1 r2) a d → ∃ b, run r1 a b ∧ run r2 b d.
Proof. inversion 1; subst. eauto. Qed.

Lemma run_chr_inv p a b :
  run (Chr p) a b → ∃ x, a.1 = x :: b.1 ∧ p x = true ∧ b.2 = a.2.
Proof. inversion 1; subst. eauto. Qed.

Lemma run_group_inv n r a b :
  run (Group n r) a b →
  ∃ c', run r a (b.1, c') ∧ b.2 = <[n := take (length a.1 - length b.1) a.1]> c'.
Proof. inversion 1; subst. eauto. Qed.

Lemma run_opt_inv r a b : run (Opt r) a b → b = a ∨ run r a b.
Proof. inversion 1; subst; auto. Qed.

Ltac run_inv :=
  repeat match goal with
  | H : run (Seq _ _) _ _ |- _ => apply run_seq_inv in H as ([??] & ? & ?)
  | H : run (Chr _) _ _ |- _ =>
      apply run_chr_inv in H as (? & ? & ? & ?); cbn [fst snd] in *
  | H : run (Group _ _) _ _ |- _ =>
      apply run_group_inv in H as (? & ? & ?); cbn [fst snd] in *
  | H : run (Star _ (Chr _)) _ _ |- _ =>
      apply run_star_class in H as (? & ? & ? & ?); cbn [fst snd] in *
  end.

Lemma is_char_eq (a : ascii) (x : N) : is_char a x = true → x = cu a.
Proof. unfold is_char. apply N.eqb_eq. Qed.

Lemma Forall_nonspace (w : jsstring) :
  Forall (λ x, is_nonspace x = true) w → Forall (λ x, is_space x = false) w.
Proof.
  intros H. eapply Forall_impl; [exact H|].
  intros x. unfold is_nonspace. apply negb_true_iff.
Qed.

(** A run of the choice pattern over a whole line, read off piece by
    piece. *)
Lemma choiceRe_run_shape (line s' : jsstring) (c' : caps) :
  run choiceRe (line, ∅) (s', c') →
  ∃ ws1 ws2 ws3 rest t next,
    c' !! 1%nat = Some t ∧ c' !! 2%nat = Some next ∧
    line = cu ">" :: ws1 ++ t ++ ws2 ++ js "->" ++ ws3 ++ next ++ rest ∧
    Forall (λ x, is_space x = true) ws1 ∧
    Forall (λ x, is_space x = true) ws2 ∧
    Forall (λ x, is_space x = true) ws3 ∧
    Forall (λ x, is_dot x = true) t ∧
    next ≠ [] ∧ Forall (λ x, is_space x = false) next ∧
    match c' !! 3%nat with
    | None => True
    | Some e =>
        Forall (λ x, is_dot x = true) e ∧
        ∃ ws4 rest', rest = ws4 ++ js "(" ++ e ++ js ")" ++ rest' ∧
                     Forall (λ x, is_space x = true) ws4
    end.
Proof.
  intros Hr. unfold choiceRe, Plus in Hr.
  apply run_seq_inv in Hr as ([s8 c8] & Hr & Ho).
  run_inv. subst.
  repeat match goal with
  | H : is_char _ _ = true |- _ => apply is_char_eq in H; subst
  end.
  rewrite take_consumed in Ho.
  match type of Ho with
  | context [take _ (?x :: ?w ++ s8)] =>
      change (x :: w ++ s8) with ((x :: w) ++ s8) in Ho;
      rewrite take_consumed in Ho
  end.
  match type of Ho with
  | run _ (_, <[2%nat := ?n]> (<[1%nat := ?l]> ∅)) _ =>
      assert (c' !! 1%nat = Some l ∧ c' !! 2%nat = Some n ∧
                (c' !! 3%nat = None ∨
                 ∃ e ws4, c' !! 3%nat = Some e ∧ Forall (λ x, is_dot x = true) e ∧
                   Forall (λ x, is_space x = true) ws4 ∧
                   s8 = ws4 ++ js "(" ++ e ++ js ")" ++ s')) as Hc
  end.
  { apply run_opt_inv in Ho as [[= -> ->]|Ho].
    - rewrite lookup_insert_ne by done.
      rewrite !lookup_insert_eq. rewrite !lookup_insert_ne by done.
      rewrite lookup_empty. auto.
    - run_inv. subst.
      repeat match goal with
      | H : is_char _ _ = true |- _ => apply is_char_eq in H; subst
      end.
      rewrite take_consumed.
      rewrite lookup_insert_ne by done. rewrite lookup_insert_ne by done.
      rewrite lookup_insert_eq. rewrite lookup_insert_ne by done.
      rewrite !lookup_insert_eq. split; [done|]. split; [done|]. right.
      eexists _, _. split; [done|]. split; [done|]. split; [done|]. done. }
  destruct Hc as (E1 & E2 & Hc).
  eexists _, _, _, s8, _, _. split; [exact E1|]. split; [exact E2|].
  split; [reflexivity|].
  do 5 (split; [done|]).
  split; [apply Forall_nonspace; by constructor|].
  destruct Hc as [->|(e & ws4 & -> & He & Hw & Hs)]; [done|]. subst s8.
  split; [done|]. by exists ws4, s'.
Qed.

(** The parts of a matching choice line that a compiled choice keeps. *)
Lemma matchChoice_parts (line t next : jsstring) (effStr : option jsstring) :
  matchChoice line = Some (t, next, effStr) →
  Forall (λ x, is_dot x = true) t ∧
  next ≠ [] ∧ Forall (λ x, is_space x = false) next.
Proof.
  unfold matchChoice, match_start. intros H.
  destruct (mtch choiceRe line ∅ _) as [m|] eqn:Hm; [|done].
  apply mtch_sound in Hm as (s' & c' & Hr & [= <-]).
  apply choiceRe_run_shape in Hr
    as (? & ? & ? & ? & t' & next' & E1 & E2 & _ & _ & _ & _ & Ht & Hn & Hs & _).
  rewrite E1, E2 in H. cbn [default] in H. by injection H as <- <- <-.
Qed.

(** X3. A line the choice pattern matches reads: the marker, white space,
    the label, white space, the arrow, white space, the target, and then
    anything. The label holds no line terminator, the target is not empty
    and holds no white space, and an effects text, when captured, stands
    in parentheses after the target and holds no line terminator. *)
Theorem matchChoice_shape (line t next : jsstring) (effStr : option jsstring) :
  matchChoice line = Some (t, next, effStr) →
  ∃ ws1 ws2 ws3 rest,
    line = cu ">" :: ws1 ++ t ++ ws2 ++ js "->" ++ ws3 ++ next ++ rest ∧
    Forall (λ x, is_space x = true) ws1 ∧
    Forall (λ x, is_space x = true) ws2 ∧
    Forall (λ x, is_space x = true) ws3 ∧
    Forall (λ x, is_dot x = true) t ∧
    next ≠ [] ∧ Forall (λ x, is_space x = false) next ∧
    match effStr with
    | None => True
    | Some e =>
        Forall (λ x, is_dot x = true) e ∧
        ∃ ws4 rest', rest = ws4 ++ js "(" ++ e ++ js ")" ++ rest' ∧
                     Forall (λ x, is_space x = true) ws4
    end.
Proof.
  unfold matchChoice, match_start. intros H.
  destruct (mtch choiceRe line ∅ _) as [m|] eqn:Hm; [|done].
  apply mtch_sound in Hm as (s' & c' & Hr & [= <-]).
  apply choiceRe_run_shape in Hr
    as (ws1 & ws2 & ws3 & rest & t' & next' & E1 & E2 & Hline & H1 & H2 & H3 &
        Ht & Hn & Hs & He).
  rewrite E1, E2 in H. cbn [default] in H. injection H as <- <- <-.
  exists ws1, ws2, ws3, rest. by repeat (split; [assumption|]).
Qed.

Lemma matchChoice_shape_witness :
  matchChoice (js "> Go left -> left (+courage)") =
    Some (js "Go left", js "left", Some (js "+courage")) ∧
  ∃ ws1 ws2 ws3 rest,
    js "> Go left -> left (+courage)" =
      cu ">" :: ws1 ++ js "Go left" ++ ws2 ++ js "->" ++ ws3 ++ js "left" ++ rest ∧
    Forall (λ x, is_space x = true) ws1 ∧
    Forall (λ x, is_space x = true) ws2 ∧
    Forall (λ x, is_space x = true) ws3 ∧
    Forall (λ x, is_dot x = true) (js "Go left") ∧
    js "left" ≠ [] ∧ Forall (λ x, is_space x = false) (js "left") ∧
    (Forall (λ x, is_dot x = true) (js "+courage") ∧
     ∃ ws4 rest', rest = ws4 ++ js "(" ++ js "+courage" ++ js ")" ++ rest' ∧
                  Forall (λ x, is_space x = true) ws4).
Proof.
  assert (matchChoice (js "> Go left -> left (+courage)") =
          Some (js "Go left", js "left", Some (js "+courage"))) as H
    by (vm_compute; reflexivity).
  split; [exact H|].
  exact (matchChoice_shape _ _ _ _ H).
Defined.

(** ** The parser: what a compiled scene holds *)

Lemma dropSpaces_head (s : jsstring) (x : N) (l : jsstring) :
  dropSpaces s = x :: l → is_space x = false.
Proof.
  induction s as [|y s IH]; simpl; [done|].
  destruct (is_space y) eqn:E; [done|]. by intros [= <- _].
Qed.

Lemma dropSpaces_suffix (s : jsstring) : ∃ p, s = p ++ dropSpaces s.
Proof.
  induction s as [|y s [p IH]]; simpl; [by exists []|].
  destruct (is_space y); [|by exists []].
  exists (y :: p). simpl. by rewrite <- IH.
Qed.

(** A trimmed line that is not blank starts and ends with a character
    that is not white space. *)
Lemma trim_ends (s : jsstring) :
  trim s ≠ [] →
  (∃ x, head (trim s) = Some x ∧ is_space x = false) ∧
  (∃ y, last (trim s) = Some y ∧ is_space y = false).
Proof.
  unfold trim. intros Hne.
  destruct (dropSpaces (reverse (dropSpaces s))) as [|y v] eqn:Hv; [done|].
  split.
  - rewrite head_reverse.
    destruct (dropSpaces_suffix (reverse (dropSpaces s))) as [p Hp].
    rewrite Hv in Hp.
    assert (last (y :: v) = head (dropSpaces s)) as Hl.
    { rewrite <- last_reverse, Hp, last_app.
      destruct (last (y :: v)) eqn:E; [done|]. by apply last_None in E. }
    destruct (dropSpaces s) as [|x u] eqn:Hu.
    { simpl in Hl. by apply last_None in Hl. }
    exists x. split; [by rewrite Hl|]. by eapply dropSpaces_head.
  - exists y. rewrite reverse_cons, last_snoc. split; [done|].
    by eapply dropSpaces_head.
Qed.

Lemma takeClass_Forall (p : N → bool) (s : jsstring) :
  Forall (λ x, p x = true) (takeClass p s).
Proof.
  induction s as [|x s IH]; simpl; [constructor|].
  destruct (p x) eqn:E; by constructor.
Qed.

Lemma parseEffToken_entry (tok k : jsstring) (d : Z) :
  parseEffToken tok = Some (k, d) →
  (d = 1 ∨ d = -1) ∧ k ≠ [] ∧ Forall (λ x, is_name x = true) k.
Proof.
  rewrite parseEffToken_spec. destruct tok as [|x rest]; [done|].
  destruct (is_sign x).
  - destruct rest as [|y rest]; [done|]. destruct (is_name y) eqn:Ey; [|done].
    intros [= <- <-]. split; [destruct (x =? 45)%N; auto|].
    split; [simpl; by rewrite Ey|apply (takeClass_Forall is_name (y :: rest))].
  - destruct (is_name x) eqn:Ex; [|done].
    intros [= <- <-]. split; [auto|].
    split; [simpl; by rewrite Ex|apply (takeClass_Forall is_name (x :: rest))].
Qed.

Lemma choiceOfMatch_built (line : jsstring) m :
  matchChoice line = Some m → builtChoice (choiceOfMatch m).
Proof.
  destruct m as [[t next] effStr]. intros H.
  apply matchChoice_parts in H as (Ht & Hn & Hs).
  unfold builtChoice, choiceOfMatch; cbn [c_next c_text c_effects].
  split; [done|]. split; [done|]. split; [done|]. split.
  - unfold nonEmptyEffects. case_bool_decide; [done|]. congruence.
  - intros e k d He Hk. unfold nonEmptyEffects in He.
    case_bool_decide; [done|]. injection He as <-.
    rewrite parseEffects_tokens in Hk.
    apply foldl_effStep_origin in Hk as (tok & _ & Htok).
    by eapply parseEffToken_entry.
Qed.

Lemma pushCurrent_built (st : pstate) :
  pstateBuilt st → Forall builtScene (pushCurrent st).
Proof.
  intros [Hs Hc]. unfold pushCurrent. destruct (p_current st); [|done].
  apply Forall_app. split; [done|]. by constructor.
Qed.

Lemma parseLine_built (st : pstate) (raw : jsstring) :
  pstateBuilt st → pstateBuilt (parseLine st raw).
Proof.
  intros Hst. pose proof (pushCurrent_built st Hst) as Hpush.
  unfold parseLine. pose proof (trim_ends raw) as Hends.
  destruct (trim raw) as [|x line] eqn:Hl; [done|].
  destruct Hends as [Hhead Hlast]; [done|].
  destruct (startsWith (x :: line) (js "#scene ")) eqn:Hs.
  { split; [done|]. by split. }
  destruct (startsWith (x :: line) (js "#ending ")) eqn:He.
  { split; [done|]. split; [done|]. by left. }
  destruct Hst as [Hscenes Hcur].
  destruct (startsWith (x :: line) (js ">")) eqn:Hg.
  - destruct (p_current st) as [[i body choices|i title body]|] eqn:Hc;
      try by split; [|rewrite Hc].
    destruct (matchChoice (x :: line)) as [m|] eqn:Hm; [|by split; [|rewrite Hc]].
    split; [done|]. cbn [p_current]. destruct Hcur as [Hb Hch].
    split; [done|]. apply Forall_app. split; [done|].
    constructor; [|done]. by eapply choiceOfMatch_built.
  - assert (storedLine (x :: line)) as Hline.
    { split; [done|]. split; [done|]. split; [|done].
      unfold isMarker. by rewrite Hs, He. }
    destruct (p_current st) as [[i body choices|i title body]|] eqn:Hc.
    + split; [done|]. cbn [p_current]. destruct Hcur as [Hb Hch].
      split; [|done]. apply Forall_app. split; [done|]. by constructor.
    + destruct Hcur as [Hb Ht]. destruct title as [|t0 title].
      * destruct (startsWith (x :: line) endingMarker) eqn:Hm.
        -- split; [done|]. cbn [p_current]. split; [done|]. by right.
        -- split; [done|]. cbn [p_current]. split; [|by left].
           apply Forall_app. split; [done|]. by constructor.
      * split; [done|]. cbn [p_current]. split; [|done].
        apply Forall_app. split; [done|]. by constructor.
    + by split; [|rewrite Hc].
Qed.

Lemma foldl_parseLine_built (lines : list jsstring) (st : pstate) :
  pstateBuilt st → pstateBuilt (foldl parseLine st lines).
Proof.
  revert st. induction lines as [|raw lines IH]; intros st Hst; [done|].
  simpl. by apply IH, parseLine_built.
Qed.

(** X4. Every scene the parser compiles is well formed: its body lines
    are not blank, carry no white space at either end and are neither
    marker nor choice lines; the title of an ending is empty or a line
    that opens with the ending marker; every choice has a non-empty target
    without white space, a label without line terminator, and effects that
    are either absent or a non-empty map from names of letters and
    underscores to +1 or -1. *)
Theorem parseScenes_built (text : jsstring) :
  Forall builtScene (parseScenes text) ∧
  ∀ name, Forall builtScene (sc_scenes (buildScenario name text)).
Proof.
  assert (Forall builtScene (parseScenes text)) as H.
  { apply pushCurrent_built, foldl_parseLine_built. by split. }
  by split.
Qed.

(** ** The title of an imported script *)

Lemma orElse_None_r {A} (x : option A) : orElse x None = x.
Proof. by destruct x. Qed.

(** A greedy [[p]*] before a continuation that accepts the end of the
    input only succeeds when the whole rest is in the class. *)
Lemma starLoop_class_end {A} (p : N → bool) (k : jsstring → caps → option A)
    (fuel : nat) (s : jsstring) (c : caps) :
  (∀ x s' c', k (x :: s') c' = None) → (length s < fuel)%nat →
  starLoop (λ s' c' k', match s' with
                        | x :: s'' => if p x then k' s'' c' else None
                        | [] => None
                        end) true k fuel s c
  = if forallb p s then k [] c else None.
Proof.
  intros Hk. revert s. induction fuel as [|fuel IH]; intros s Hlen; [lia|].
  destruct s as [|x s]; [done|]. cbn [starLoop forallb].
  rewrite Hk, orElse_None_r. destruct (p x); [|done].
  assert ((length s <? length (x :: s))%nat = true) as ->
    by (apply Nat.ltb_lt; simpl; lia).
  cbn [andb]. apply IH. simpl in Hlen. lia.
Qed.

Lemma mtch_extRe (s : jsstring) :
  mtch extRe s ∅ (λ s' _, Some s') =
  match s with
  | x :: y :: w =>
      if (x =? 46)%N && is_word y && forallb is_word w then Some [] else None
  | _ => None
  end.
Proof.
  unfold extRe, Plus. cbn [mtch]. destruct s as [|x [|y w]]; try done.
  - unfold is_char. by destruct (x =? cu ".")%N.
  - unfold is_char. change (cu ".") with 46%N.
    destruct (x =? 46)%N; [|done]. destruct (is_word y); [|done].
    cbn [andb]. rewrite starLoop_class_end; [done|done|lia].
Qed.

Lemma forallb_dot_false (base ext : jsstring) :
  forallb is_word (base ++ 46%N :: ext) = false.
Proof.
  induction base as [|b base IH]; [done|]. simpl. rewrite IH. apply andb_false_r.
Qed.

Lemma replaceFirst_unfold (r : re) (repl s : jsstring) :
  replaceFirst r repl s =
  match mtch r s ∅ (λ s' _, Some s') with
  | Some rest => repl ++ rest
  | None =>
      match s with
      | [] => []
      | x :: s' => x :: replaceFirst r repl s'
      end
  end.
Proof. by destruct s. Qed.

(** X5. The title of an imported script is the file name without its last
    extension: a final dot followed by one or more letters, digits or
    underscores is cut off, whatever stands before it; a name that does
    not end in such an extension is kept whole. *)
Theorem title_strips_extension (name : jsstring) :
  (∀ base ext,
     name = base ++ cu "." :: ext → ext ≠ [] → forallb is_word ext = true →
     ∀ text, sc_title (buildScenario name text) = base) ∧
  ((∀ base ext, name = base ++ cu "." :: ext →
      ext = [] ∨ forallb is_word ext = false) →
   ∀ text, sc_title (buildScenario name text) = name).
Proof.
  change (cu ".") with 46%N. unfold buildScenario; cbn [sc_title]. split.
  - intros base ext -> Hne Hw _. induction base as [|b base IH].
    + rewrite replaceFirst_unfold, mtch_extRe. cbn [app].
      destruct ext as [|y w]; [done|]. cbn [forallb] in Hw.
      rewrite N.eqb_refl. cbn [andb]. by rewrite Hw.
    + rewrite replaceFirst_unfold, mtch_extRe. cbn [app].
      assert (match base ++ 46%N :: ext with
              | [] => None
              | y :: w =>
                  if (b =? 46)%N && is_word y && forallb is_word w
                  then Some [] else @None jsstring
              end = None) as ->.
      { destruct (base ++ 46%N :: ext) as [|y w] eqn:E; [done|].
        pose proof (forallb_dot_false base ext) as Hf. rewrite E in Hf.
        cbn [forallb] in Hf. rewrite <- andb_assoc, Hf. by rewrite andb_false_r. }
      by rewrite IH.
  - intros H _. induction name as [|x s IH]; [done|].
    rewrite replaceFirst_unfold, mtch_extRe.
    assert (match s with
            | [] => None
            | y :: w =>
                if (x =? 46)%N && is_word y && forallb is_word w
                then Some [] else @None jsstring
            end = None) as ->.
    { destruct s as [|y w]; [done|].
      destruct (x =? 46)%N eqn:Ex; [|done]. apply N.eqb_eq in Ex. subst x.
      destruct (H [] (y :: w) eq_refl) as [?|Hf]; [done|].
      cbn [forallb] in Hf. cbn [andb]. by rewrite Hf. }
    f_equal. apply IH. intros base ext ->. by apply (H (x :: base) ext).
Qed.

Lemma title_strips_extension_witness :
  (∀ text, sc_title (buildScenario (js "my.story.txt") text) = js "my.story") ∧
  (∀ text, sc_title (buildScenario (js "readme") text) = js "readme").
Proof.
  split.
  - apply (proj1 (title_strips_extension (js "my.story.txt")) (js "my.story") (js "txt"));
      [reflexivity|done|reflexivity].
  - apply (proj2 (title_strips_extension (js "readme"))).
    intros base ext H. exfalso.
    assert (cu "." ∈ js "readme") as Hin.
    { rewrite H. apply elem_of_app. right. apply elem_of_cons. by left. }
    vm_compute in Hin. repeat (apply elem_of_cons in Hin as [Hin|Hin]; [done|]).
    by apply elem_of_nil in Hin.
Defined.

(** ** The solo page *)

Lemma solo_validate_start (data : Scenario) :
  Solo.validateScenario (scenario_val data) = Accepted →
  ∃ scene, scene ∈ sc_scenes data ∧ scene_id scene = sc_start data.
Proof.
  change (Solo.validateScenario (scenario_val data))
    with (Lobby.validateScenario (scenario_val data)).
  rewrite lobby_validate_scenario.
  destruct (existsb _ _) eqn:E; [|done]. intros _. by apply existsb_scene_id.
Qed.

Lemma soloScreen_playing (st : SoloState) sc scene :
  soloScreen st = SoloPlaying sc scene →
  s_loading st = false ∧ s_error st = None ∧ s_scenario st = Some sc ∧
  s_sceneId st = Some (scene_id scene) ∧ scene_id scene ≠ [] ∧
  scene ∈ sc_scenes sc.
Proof.
  unfold soloScreen. destruct (s_loading st); [done|].
  destruct (s_error st); [done|]. destruct (s_scenario st) as [sc'|]; [|done].
  destruct (s_sceneId st) as [[|x i]|]; try done.
  destruct (find_scene (sc_scenes sc') (x :: i)) as [scene'|] eqn:Hf; [|done].
  intros [= -> ->]. unfold find_scene in Hf. apply find_some in Hf as [Hin Hid].
  apply bool_decide_eq_true in Hid. rewrite Hid.
  repeat split; try done. by apply list_elem_of_In.
Qed.

Lemma back_inv (st : SoloState) :
  s_sceneId st = last (s_history st) →
  s_sceneId (back st) = last (s_history (back st)).
Proof. unfold back. by destruct (length (s_history st) <=? 1)%nat. Qed.

Lemma soloStep_inv (i : SoloInput) (st : SoloState) :
  soloInv st → soloInv (soloStep i st).
Proof.
  intros Hinv.
  assert (∀ data, soloInv (soloLoaded data st)) as Hload.
  { intros data. destruct Hinv as [Hh Hs]. unfold soloLoaded.
    destruct (Solo.validateScenario _) eqn:Hv; split; simpl; try done.
    intros sc [= <-]. by apply solo_validate_start. }
  assert (soloInv (soloFetchFailed st)) as Hfail
    by (destruct Hinv; by split).
  destruct i as [data| |data| |n| | | |name text]; cbn [soloStep];
    [apply Hload|apply Hfail|apply Hload|apply Hfail|..].
  all: destruct (soloScreen st) as [| |sc scene] eqn:Hscr; try done.
  all: apply soloScreen_playing in Hscr as (Hl & He & Hsc & Hid & _ & _).
  all: destruct Hinv as [Hh Hs]; specialize (Hh Hl He).
  - destruct scene as [i body choices|i title body]; [|by split].
    destruct (choices !! n) as [c|]; [|by split].
    split; [|done]. intros _ _. simpl. by rewrite last_snoc.
  - assert (soloInv (back st)) as Hb.
    { split; [intros _ _; by apply back_inv|].
      unfold back. by destruct (length (s_history st) <=? 1)%nat. }
    by destruct scene.
  - destruct scene as [i body choices|i title body]; [by split|].
    split; [done|]. done.
  - assert (soloInv (soloResetStart st)) as Hr by (by split).
    by destruct scene.
  - assert (soloInv (soloTxtUpload name text st)) as Hu.
    { unfold soloTxtUpload, onTxtUpload.
      destruct (Solo.validateScenario _) eqn:Hv; split; simpl; try done.
      intros sc' [= <-]. by apply solo_validate_start. }
    by destruct scene.
Qed.

(** X6. On the solo page, in every state that can be reached: off the
    loading and error notices the current scene is the last entry of the
    history; an installed scenario has a scene with the id [start]; and on
    the playing screen the history is not empty and ends with the id of
    the scene shown, which is a scene of the installed scenario. *)
Theorem solo_history_invariant (st : SoloState) :
  soloReachable st →
  soloInv st ∧
  ∀ sc scene, soloScreen st = SoloPlaying sc scene →
    s_history st ≠ [] ∧ last (s_history st) = Some (scene_id scene) ∧
    scene ∈ sc_scenes sc.
Proof.
  intros Hr.
  assert (soloInv st) as Hinv.
  { induction Hr as [|i st _ IH]; [by split|by apply soloStep_inv]. }
  split; [done|]. intros sc scene Hscr.
  apply soloScreen_playing in Hscr as (Hl & He & Hsc & Hid & _ & Hin).
  destruct Hinv as [Hh _]. specialize (Hh Hl He). rewrite Hid in Hh.
  split; [|by split]. intros Hnil. by rewrite Hnil in Hh.
Qed.

Lemma solo_history_invariant_witness :
  let st := soloStep (SClickChoice 0) (soloStep (SLoaded demoScenario) soloInit) in
  s_history st = [js "start"; js "left"] ∧
  last (s_history st) = Some (js "left").
Proof.
  intros st. split; [vm_compute; reflexivity|].
  assert (soloReachable st) as Hr by (repeat constructor).
  destruct (proj2 (solo_history_invariant st Hr) demoScenario
              (Ending (js "left") (endingMarker ++ js " You win") [js "The end"])
              ltac:(vm_compute; reflexivity)) as (_ & H & _).
  exact H.
Defined.

(** X7. [back] undoes the move of [go] but not its effects: after a
    choice, going back restores the scene and the history and leaves the
    variables as the choice set them. [back] never changes the variables
    and never empties a history. *)
Theorem back_after_go (st : SoloState) :
  (∀ nextId effects,
     s_sceneId st = last (s_history st) → s_history st ≠ [] →
     back (go nextId effects st) =
     {| s_loading := s_loading st; s_error := s_error st;
        s_scenario := s_scenario st; s_sceneId := s_sceneId st;
        s_vars := applyEffects (s_vars st) effects;
        s_history := s_history st |}) ∧
  s_vars (back st) = s_vars st ∧
  (s_history st ≠ [] → s_history (back st) ≠ []).
Proof.
  split; [|split].
  - intros nextId effects Hid Hne. unfold back, go; cbn [s_history].
    rewrite length_app; cbn [length].
    destruct (s_history st) as [|h0 h] eqn:Hh; [done|].
    assert ((length (h0 :: h) + 1 <=? 1)%nat = false) as ->
      by (apply Nat.leb_gt; simpl; lia).
    cbn zeta. rewrite removelast_last, <- Hid. cbn. reflexivity.
  - unfold back. by destruct (length (s_history st) <=? 1)%nat.
  - unfold back. destruct (length (s_history st) <=? 1)%nat eqn:E; [done|].
    intros _. apply Nat.leb_gt in E. cbn [s_history].
    destruct (s_history st) as [|a [|b l]]; simpl in E; try lia. done.
Qed.

Lemma back_after_go_witness :
  let st := soloStep (SLoaded demoScenario) soloInit in
  back (go (js "left") (Some {[js "courage" := 1]}) st) =
  {| s_loading := false; s_error := None; s_scenario := Some demoScenario;
     s_sceneId := Some (js "start"); s_vars := {[js "courage" := Num 1]};
     s_history := [js "start"] |}.
Proof.
  intros st.
  rewrite (proj1 (back_after_go st) (js "left") (Some {[js "courage" := 1]})
             ltac:(vm_compute; reflexivity) ltac:(vm_compute; discriminate)).
  vm_compute. reflexivity.
Defined.

(** ** The room client: versions and turns *)

Lemma act_cases (a : Action) (st : Client) :
  shared (act a st) = shared st ∨
  (∃ id now, a = ClickSend id now ∧ act a st = sendNarrativeAndAdvance id now st) ∨
  (a = ClickRestart ∧ act a st = restart st).
Proof.
  destruct (mayChangeShared (User a)) eqn:Hm; [|left; by apply shared_act_other].
  destruct a; try discriminate Hm.
  - unfold act, articleControl.
    destruct (screen st); try by left.
    destruct (_ && _); [right; left; by eexists _, _|by left].
  - unfold act, articleControl.
    destruct (screen st); try by left. by right; right.
Qed.

Lemma version_step_mono (i : Input) (st : Client) (sh : SharedState) :
  sharedRef st = shared st → shared st = Some sh →
  ∃ sh', shared (step i st) = Some sh' ∧ version sh ≤ version sh'.
Proof.
  intros Href Hsh.
  destruct (mayChangeShared i) eqn:Hm.
  2:{ exists sh. by rewrite shared_step_other. }
  unfold step, afterRender; cbn [shared set_channel set_sharedRef].
  destruct i as [| | | | |p| | | |a]; try discriminate Hm; cbn [handle].
  - destruct (channel st); [|by exists sh].
    rewrite shared_onSubscribed by (done || by rewrite Hsh). by exists sh.
  - destruct (channel st); [|by exists sh].
    unfold onStateUpdate; cbn [shared set_shared]. rewrite Hsh. cbn [adopt].
    destruct (version p >? version sh) eqn:E; [exists p|exists sh]; split; try done; lia.
  - destruct (act_cases a st) as [->|[(id & now & -> & ->)|[-> ->]]].
    + by exists sh.
    + unfold sendNarrativeAndAdvance. rewrite Hsh.
      destruct (scenario st); [|by exists sh].
      destruct (composerChoice st) as [c|]; [|by exists sh].
      exists (nextState sh c). unfold cancelComposer. cbn - [send nextState].
      rewrite shared_send. split; [done|]. simpl. lia.
    + unfold restart. destruct (scenario st) as [sc|]; [|by exists sh].
      rewrite shared_send. cbn [shared set_sharedRef set_shared]. rewrite Hsh.
      eexists. split; [done|]. simpl. lia.
Qed.

(** X8. A client that holds a state never loses it and never moves to a
    lower version: whatever happens next, it holds a state afterwards, of
    a version at least as high. *)
Theorem version_never_decreases (r : Turn) (name : jsstring) (st : Client)
    (sh : SharedState) (i : Input) :
  reachable r name st → shared st = Some sh →
  ∃ sh', shared (step i st) = Some sh' ∧ version sh ≤ version sh'.
Proof.
  intros Hr Hsh. apply version_step_mono; [|done].
  by apply (reachable_inv r name).
Qed.

Lemma version_never_decreases_witness :
  let st := step Subscribed
              (step (ScenarioLoaded demoScenario) (initClient P1 (js "Jihu"))) in
  let stale := {| sceneId := js "left"; vars := ∅; turn := P2; version := 0 |} in
  ∃ sh', shared (step (RecvStateUpdate stale) st) = Some sh' ∧ 1 ≤ version sh'.
Proof.
  intros st stale.
  assert (reachable P1 (js "Jihu") st) as Hr by (repeat constructor).
  exact (version_never_decreases P1 (js "Jihu") st (initState demoScenario)
           (RecvStateUpdate stale) Hr eq_refl).
Defined.

(** X9. A Secondary that joins late catches up: its join sends a state
    request and builds no state; a peer that holds a state answers the
    request with that state, and the Secondary adopts the answer. A peer
    that holds no state yet does not answer and keeps nothing for
    later. *)
Theorem late_join_catch_up (p1 p2 : Client) :
  channel p1 = true → channel p2 = true →
  role p2 = P2 → scenario p2 ≠ None → shared p2 = None →
  (outbox (handle Subscribed p2) = outbox p2 ++ [StateRequest P2] ∧
   shared (handle Subscribed p2) = None) ∧
  (∀ cur, sharedRef p1 = Some cur →
     outbox (handle RecvStateRequest p1) = outbox p1 ++ [StateUpdate cur] ∧
     shared (handle RecvStateRequest p1) = shared p1 ∧
     shared (handle (RecvStateUpdate cur) (handle Subscribed p2)) = Some cur) ∧
  (sharedRef p1 = None → handle RecvStateRequest p1 = p1).
Proof.
  intros Hc1 Hc2 Hr Hsc Hsh.
  assert (handle Subscribed p2 = send (StateRequest P2) p2) as Hjoin.
  { cbn [handle]. rewrite Hc2. unfold onSubscribed.
    destruct (scenario p2); [|done]. by rewrite Hr. }
  split; [|split].
  - rewrite Hjoin. split; [by apply outbox_send|]. by rewrite shared_send.
  - intros cur Hcur. cbn [handle]. rewrite Hc1. unfold onStateRequest.
    rewrite Hcur. split; [by apply outbox_send|].
    split; [apply shared_send|].
    change (shared (handle (RecvStateUpdate cur) (handle Subscribed p2)) = Some cur).
    rewrite Hjoin. cbn [handle]. rewrite channel_send, Hc2.
    unfold onStateUpdate; cbn [shared set_shared].
    by rewrite shared_send, Hsh.
  - intros Hnone. cbn [handle]. rewrite Hc1. unfold onStateRequest.
    by rewrite Hnone.
Qed.

Lemma late_join_catch_up_witness :
  let p1 := demoClient (js "left") 3 in
  let p2 := step (ScenarioLoaded demoScenario) (initClient P2 (js "Mina")) in
  shared (handle (RecvStateUpdate
                    {| sceneId := js "left"; vars := ∅; turn := P1; version := 3 |})
            (handle Subscribed p2)) = shared p1.
Proof.
  intros p1 p2.
  destruct (late_join_catch_up p1 p2 eq_refl eq_refl eq_refl
              ltac:(discriminate) eq_refl) as (_ & H & _).
  destruct (H _ eq_refl) as (_ & _ & H3). exact H3.
Defined.

Lemma turn_resolution_aux (st : Client) (loc : SharedState) (sc : Scenario)
    (c : Choice) (id : jsstring) (now : Z) :
  shared st = Some loc → scenario st = Some sc → composerChoice st = Some c →
  channel st = true →
  shared (sendNarrativeAndAdvance id now st) = Some (nextState loc c) ∧
  ∃ pre, outbox (sendNarrativeAndAdvance id now st) =
         outbox st ++ pre ++ [StateUpdate (nextState loc c)] ∧
         ∀ b, b ∈ pre → ∃ m, b = MsgAdd m.
Proof.
  intros Hsh Hsc Hc Hch.
  unfold sendNarrativeAndAdvance. rewrite Hsh, Hsc, Hc. cbv zeta.
  destruct (trim (composerText st)) as [|x t] eqn:Ht; simpl.
  - unfold send; simpl. rewrite Hch. simpl. split; [done|].
    exists []. split; [done|]. intros b Hb. by apply elem_of_nil in Hb.
  - unfold send; simpl. rewrite Hch; simpl. rewrite Hch; simpl. split; [done|].
    eexists. split; [rewrite <- app_assoc; reflexivity|].
    intros b Hb. apply list_elem_of_singleton in Hb. eauto.
Qed.

(** X10. A resolved turn reaches the peer: when the resolver's update is
    delivered to a peer whose version is not above the resolver's
    previous one, both hold the same state, the resolver's next state. A
    peer that is already further ahead keeps what it has. *)
Theorem turn_resolution_converges (p1 p2 : Client) (loc loc2 : SharedState)
    (sc : Scenario) (c : Choice) (id : jsstring) (now : Z) :
  channel p1 = true → channel p2 = true →
  shared p1 = Some loc → scenario p1 = Some sc → composerChoice p1 = Some c →
  shared p2 = Some loc2 →
  let p1' := sendNarrativeAndAdvance id now p1 in
  let next := nextState loc c in
  last (outbox p1') = Some (StateUpdate next) ∧
  (version loc2 ≤ version loc →
     shared (handle (RecvStateUpdate next) p2) = shared p1') ∧
  (version loc < version loc2 →
     handle (RecvStateUpdate next) p2 = p2).
Proof.
  intros Hc1 Hc2 Hs1 Hsc Hc Hs2. cbv zeta.
  destruct (turn_resolution_aux p1 loc sc c id now Hs1 Hsc Hc Hc1)
    as (Hsh & Hout).
  split; [|split].
  - destruct Hout as (pre & -> & _).
    by rewrite !app_assoc, last_snoc.
  - intros Hv. rewrite Hsh. cbn [handle]. rewrite Hc2.
    unfold onStateUpdate; cbn [shared set_shared]. rewrite Hs2. cbn [adopt].
    assert ((version (nextState loc c) >? version loc2) = true) as ->
      by (simpl; lia). done.
  - intros Hv. cbn [handle]. rewrite Hc2.
    unfold onStateUpdate. rewrite Hs2. cbn [adopt].
    assert ((version (nextState loc c) >? version loc2) = false) as ->
      by (simpl; lia).
    rewrite <- Hs2. apply set_shared_same.
Qed.

Lemma turn_resolution_converges_witness :
  let p1 := set_composerText (js "hello")
              (set_composerChoice (Some demoChoice) (demoClient (js "start") 1)) in
  let p2 := demoClient (js "start") 1 in
  let loc := {| sceneId := js "start"; vars := ∅; turn := P1; version := 1 |} in
  shared (handle (RecvStateUpdate (nextState loc demoChoice)) p2) =
  shared (sendNarrativeAndAdvance (js "id-1") 1000 p1).
Proof.
  intros p1 p2 loc.
  destruct (turn_resolution_converges p1 p2 loc loc demoScenario demoChoice
              (js "id-1") 1000 eq_refl eq_refl eq_refl eq_refl eq_refl eq_refl)
    as (_ & H & _).
  apply H. simpl. lia.
Defined.

Lemma isMyTurn_send (st : Client) (id : jsstring) (now : Z) :
  isMyTurn st = true → scenario st ≠ None → composerChoice st ≠ None →
  isMyTurn (sendNarrativeAndAdvance id now st) = false ∧
  composerChoice (sendNarrativeAndAdvance id now st) = None.
Proof.
  unfold isMyTurn, sendNarrativeAndAdvance.
  destruct (shared st) as [sh|] eqn:Hsh; [|done].
  destruct (scenario st); [|done]. destruct (composerChoice st) as [c|]; [|done].
  intros Ht%bool_decide_eq_true _ _. unfold cancelComposer.
  cbn - [send nextState]. rewrite shared_send.
  cbn - [send nextState].
  assert (role (send (StateUpdate (nextState sh c))
            (set_sharedRef (Some (nextState sh c))
               (set_shared (Some (nextState sh c))
                  match trim (composerText st) with
                  | [] => st
                  | _ :: _ =>
                      send (MsgAdd _) (set_logs _ st)
                  end))) = role st) as ->.
  { unfold send. repeat (case_match; simpl); done. }
  split; [|done]. apply bool_decide_eq_false. simpl. rewrite Ht.
  by destruct (role st).
Qed.

Lemma act_not_my_turn (a : Action) (st : Client) :
  isMyTurn st = false → a ≠ ClickRestart → shared (act a st) = shared st.
Proof.
  intros Ht Ha.
  destruct (mayChangeShared (User a)) eqn:Hm; [|by apply shared_act_other].
  destruct a; try discriminate Hm; [|done].
  unfold act, articleControl, composerShown. rewrite Ht.
  by destruct (screen st).
Qed.

Lemma screen_scene_scenario (st : Client) choices :
  screen st = SceneScreen choices → scenario st ≠ None.
Proof.
  unfold screen. destruct (_ && _); [done|]. destruct (loading st); [done|].
  by destruct (scenario st).
Qed.

(** X11. The turn rule of the controls: a peer that does not hold the
    turn cannot change the session state by any control other than the
    restart button; and a peer that resolves a choice no longer holds the
    turn afterwards, with the composer closed, so it cannot resolve a
    second time before an update arrives. *)
Theorem turn_gate (st : Client) :
  (isMyTurn st = false →
   ∀ a, a ≠ ClickRestart → shared (step (User a) st) = shared st) ∧
  (∀ choices id now,
     screen st = SceneScreen choices → isMyTurn st = true →
     composerChoice st ≠ None → trim (composerText st) ≠ [] →
     let st' := step (User (ClickSend id now)) st in
     isMyTurn st' = false ∧ composerChoice st' = None ∧
     ∀ a, a ≠ ClickRestart → shared (step (User a) st') = shared st').
Proof.
  assert (∀ s, isMyTurn s = false →
            ∀ a, a ≠ ClickRestart → shared (step (User a) s) = shared s) as H1.
  { intros s Ht a Ha. unfold step, afterRender.
    cbn [shared set_channel set_sharedRef handle]. by apply act_not_my_turn. }
  split; [apply H1|].
  intros choices id now Hs Ht Hc Htx. cbv zeta.
  assert (step (User (ClickSend id now)) st =
          afterRender (sendNarrativeAndAdvance id now st)) as ->.
  { unfold step. cbn [handle]. by erewrite click_send_resolves. }
  pose proof (screen_scene_scenario _ _ Hs) as Hsc.
  destruct (isMyTurn_send st id now Ht Hsc Hc) as [Hturn Hcomp].
  assert (isMyTurn (afterRender (sendNarrativeAndAdvance id now st)) = false)
    as Hturn' by exact Hturn.
  split; [done|]. split; [exact Hcomp|]. by apply H1.
Qed.

Lemma turn_gate_witness :
  let waiting := demoClient (js "start") 1 in
  let sh := {| sceneId := js "start"; vars := ∅; turn := P2; version := 5 |} in
  let composing :=
    set_composerText (js "hello")
      (set_composerChoice (Some demoChoice)
         (set_sharedRef (Some sh) (set_shared (Some sh) (demoClient (js "start") 5)))) in
  shared (step (User (ClickChoice 0)) waiting) = shared waiting ∧
  isMyTurn (step (User (ClickSend (js "id-2") 2000)) composing) = false.
Proof.
  intros waiting sh composing. split.
  - apply (proj1 (turn_gate waiting)); [vm_compute; reflexivity|discriminate].
  - apply (proj2 (turn_gate composing) [demoChoice] (js "id-2") 2000).
    + vm_compute. reflexivity.
    + vm_compute. reflexivity.
    + done.
    + vm_compute. discriminate.
Defined.

(** ** The narrative log: authors and receivers *)

Lemma markEdited_editedCopy (o : Message) (t : jsstring) :
  markEdited (editedCopy o t) = editedCopy o t.
Proof. reflexivity. Qed.

(** X12. What an author does to its own log is what a receiver's merge
    does with the broadcast. Saving an edit replaces the entries by the
    edited copy exactly as the [msg:update] merge of that copy does, and
    broadcasts the copy; sending a narrative with a fresh id gives the
    log that the [msg:add] merge of the message gives, and broadcasts the
    message. So two peers with the same log have the same log again
    after the delivery. *)
Theorem author_and_receiver_agree (st : Client) :
  (∀ eid original,
     channel st = true → editingId st = Some eid → eid ≠ [] →
     find_message (logs st) eid = Some original →
     let u := editedCopy original (editingText st) in
     logs (saveEditMessage st) = updateMessage u (logs st) ∧
     outbox (saveEditMessage st) = outbox st ++ [MsgUpdate u]) ∧
  (∀ sh sc c id now,
     channel st = true →
     shared st = Some sh → scenario st = Some sc → composerChoice st = Some c →
     trim (composerText st) ≠ [] →
     (∀ x, x ∈ logs st → m_id x ≠ id) →
     let msg := {| m_id := id; m_role := role st; m_name := displayName st;
                   m_sceneId := sceneId sh; m_choiceText := c_text c;
                   m_text := trim (composerText st); m_ts := now;
                   m_edited := None |} in
     logs (sendNarrativeAndAdvance id now st) = addMessage msg (logs st) ∧
     MsgAdd msg ∈ outbox (sendNarrativeAndAdvance id now st)).
Proof.
  split.
  - intros eid original Hch He Hne Hf. cbv zeta. unfold saveEditMessage.
    rewrite He. destruct eid as [|x eid]; [done|]. rewrite Hf.
    cbn - [send editedCopy]. split.
    + unfold send. by destruct (channel _).
    + unfold send; cbn - [editedCopy]. by rewrite Hch.
  - intros sh sc c id now Hch Hsh Hsc Hc Ht Hfresh. cbv zeta.
    unfold sendNarrativeAndAdvance. rewrite Hsh, Hsc, Hc. cbv zeta.
    cbn [m_text]. destruct (trim (composerText st)) as [|x t] eqn:Htx; [done|].
    unfold cancelComposer, send; cbn - [addMessage nextState].
    rewrite Hch; cbn - [addMessage nextState].
    rewrite Hch; cbn - [addMessage nextState]. split.
    + symmetry. apply addMessage_absent. exact Hfresh.
    + apply elem_of_app. left. apply elem_of_app. right.
      by apply list_elem_of_singleton.
Qed.

Lemma author_and_receiver_agree_witness :
  let a := {| m_id := js "a"; m_role := P2; m_name := js "Mina";
              m_sceneId := js "start"; m_choiceText := js "Go left";
              m_text := js "first"; m_ts := 2000; m_edited := None |} in
  let editing :=
    set_editingText (js "first, reworded")
      (set_editingId (Some (js "a")) (set_logs [a] (demoClient (js "start") 1))) in
  let composing :=
    set_composerText (js " hello ")
      (set_composerChoice (Some demoChoice) (demoClient (js "start") 1)) in
  logs (saveEditMessage editing) =
    updateMessage (editedCopy a (js "first, reworded")) [a] ∧
  MsgAdd {| m_id := js "id-1"; m_role := P2; m_name := js "Mina";
            m_sceneId := js "start"; m_choiceText := js "Go left";
            m_text := js "hello"; m_ts := 1000; m_edited := None |}
    ∈ outbox (sendNarrativeAndAdvance (js "id-1") 1000 composing).
Proof.
  intros a editing composing. split.
  - destruct (proj1 (author_and_receiver_agree editing) (js "a") a
                eq_refl eq_refl ltac:(discriminate) ltac:(vm_compute; reflexivity))
      as [H _].
    exact H.
  - destruct (proj2 (author_and_receiver_agree composing)
                {| sceneId := js "start"; vars := ∅; turn := P1; version := 1 |}
                demoScenario demoChoice (js "id-1") 1000
                eq_refl eq_refl eq_refl eq_refl ltac:(vm_compute; discriminate))
      as [_ H].
    { intros x Hx. by apply elem_of_nil in Hx. }
    exact H.
Defined.

Lemma fmap_sorted_byTs (f : Message → Message) (l : list Message) :
  (∀ x, x ∈ l → m_ts (f x) = m_ts x) →
  StronglySorted byTs l → StronglySorted byTs (f <$> l).
Proof.
  intros Hf Hs. induction Hs as [|x l Hs IH Hx]; [constructor|].
  rewrite fmap_cons. constructor.
  - apply IH. intros y Hy. apply Hf, elem_of_cons. by right.
  - apply Forall_fmap, Forall_forall. intros y Hy.
    rewrite Forall_forall in Hx. unfold byTs, compose in *.
    rewrite (Hf x) by (apply elem_of_cons; by left).
    rewrite (Hf y) by (apply elem_of_cons; by right). by apply Hx.
Qed.

Lemma NoDup_ids_inj (l : list Message) (x y : Message) :
  NoDup (m_id <$> l) → x ∈ l → y ∈ l → m_id x = m_id y → x = y.
Proof.
  induction l as [|z l IH]; intros Hnd Hx Hy Hid.
  - by apply elem_of_nil in Hx.
  - rewrite fmap_cons in Hnd. apply NoDup_cons in Hnd as [Hz Hnd].
    apply elem_of_cons in Hx as [->|Hx], Hy as [->|Hy]; try done.
    + exfalso. apply Hz. rewrite Hid. by apply list_elem_of_fmap_2.
    + exfalso. apply Hz. rewrite <- Hid. by apply list_elem_of_fmap_2.
    + by apply IH.
Qed.

(** X13. The log stays ordered by timestamp. Merging a [msg:add] into an
    ordered log gives an ordered log, and what a turn appends locally is
    ordered. A [msg:update] merge keeps the order when the payload carries
    the timestamp of the entries it replaces; with distinct ids in the log
    the local save of an edit does, since the edited copy keeps the
    timestamp of its original. *)
Theorem log_stays_sorted (log : list Message) (m : Message) :
  StronglySorted byTs log →
  StronglySorted byTs (addMessage m log) ∧
  StronglySorted byTs (sortByTs (log ++ [m])) ∧
  ((∀ x, x ∈ log → m_id x = m_id m → m_ts x = m_ts m) →
     StronglySorted byTs (updateMessage m log)) ∧
  (∀ original text,
     NoDup (m_id <$> log) → original ∈ log →
     StronglySorted byTs (updateMessage (editedCopy original text) log)).
Proof.
  intros Hs.
  assert (∀ u, (∀ x, x ∈ log → m_id x = m_id u → m_ts x = m_ts u) →
               StronglySorted byTs (updateMessage u log)) as Hupd.
  { intros u Hts. unfold updateMessage. apply fmap_sorted_byTs; [|done].
    intros x Hx. case_bool_decide; [|done]. simpl. symmetry. by apply Hts. }
  split; [|split; [|split]].
  - unfold addMessage. destruct (existsb _ log); [done|apply sortByTs_sorted].
  - apply sortByTs_sorted.
  - apply Hupd.
  - intros original text Hnd Hin. apply Hupd. intros x Hx Hid. simpl in *.
    by rewrite (NoDup_ids_inj log x original Hnd Hx Hin Hid).
Qed.

Lemma log_stays_sorted_witness :
  let a := {| m_id := js "a"; m_role := P1; m_name := js "Jihu";
              m_sceneId := js "start"; m_choiceText := js "Go left";
              m_text := js "first"; m_ts := 1000; m_edited := None |} in
  let b := {| m_id := js "b"; m_role := P2; m_name := js "Mina";
              m_sceneId := js "left"; m_choiceText := js "Go on";
              m_text := js "second"; m_ts := 2000; m_edited := None |} in
  let c := {| m_id := js "c"; m_role := P1; m_name := js "Jihu";
              m_sceneId := js "left"; m_choiceText := js "Stay";
              m_text := js "between"; m_ts := 1500; m_edited := None |} in
  StronglySorted byTs (addMessage c [a; b]) ∧
  StronglySorted byTs (updateMessage (editedCopy a (js "reworded")) [a; b]).
Proof.
  intros a b c.
  assert (StronglySorted byTs [a; b]) as Hs.
  { repeat constructor. unfold byTs. simpl. lia. }
  split.
  - exact (proj1 (log_stays_sorted [a; b] c Hs)).
  - apply (proj2 (proj2 (proj2 (log_stays_sorted [a; b] c Hs)))).
    + simpl. apply NoDup_cons. split; [|apply NoDup_singleton].
      intros Hin. apply list_elem_of_singleton in Hin. discriminate Hin.
    + apply elem_of_cons. by left.
Defined.

(** X14. Ids stay distinct under the merges. Neither merge introduces a
    second entry of an id: after a [msg:add] merge into a log of distinct
    ids the ids are distinct, and a [msg:update] merge leaves the sequence
    of ids as it was. *)
Theorem log_ids_stay_unique (log : list Message) (m : Message) :
  m_id <$> updateMessage m log = m_id <$> log ∧
  (NoDup (m_id <$> log) → NoDup (m_id <$> addMessage m log)).
Proof.
  split.
  - unfold updateMessage. rewrite <- list_fmap_compose.
    apply list_fmap_ext. intros i x _. simpl. by case_bool_decide.
  - intros Hnd. unfold addMessage.
    destruct (existsb _ log) eqn:E; [done|].
    rewrite sortByTs_perm, fmap_app. apply NoDup_app. split; [done|].
    split; [|apply NoDup_singleton].
    intros i Hi Him. apply list_elem_of_singleton in Him. subst i.
    apply list_elem_of_fmap in Hi as (x & Hid & Hx).
    by apply (proj1 (existsb_id_false (m_id m) log) E x).
Qed.

Lemma log_ids_stay_unique_witness :
  let a := {| m_id := js "a"; m_role := P1; m_name := js "Jihu";
              m_sceneId := js "start"; m_choiceText := js "Go left";
              m_text := js "first"; m_ts := 1000; m_edited := None |} in
  let b := {| m_id := js "b"; m_role := P2; m_name := js "Mina";
              m_sceneId := js "left"; m_choiceText := js "Go on";
              m_text := js "second"; m_ts := 2000; m_edited := None |} in
  NoDup (m_id <$> addMessage b [a]) ∧ NoDup (m_id <$> addMessage a [a]).
Proof.
  intros a b.
  assert (NoDup (m_id <$> [a])) as H by (simpl; apply NoDup_singleton).
  split.
  - exact (proj2 (log_ids_stay_unique [a] b) H).
  - exact (proj2 (log_ids_stay_unique [a] a) H).
Defined.

(** ** Presence *)

Lemma redirected_send b st : redirected (send b st) = redirected st.
Proof. unfold send. by destruct (channel st). Qed.

Lemma role_send b st : role (send b st) = role st.
Proof. unfold send. by destruct (channel st). Qed.

Ltac crush_cells :=
  repeat first
    [ progress cbn [redirected role set_scenario set_shared set_sharedRef
        set_loading set_peers set_logs set_composerChoice set_composerText
        set_editingId set_editingText set_channel set_redirected
        set_pendingPeers set_outbox default mbind option_bind]
    | rewrite redirected_send
    | rewrite role_send
    | done
    | progress simplify_eq
    | progress unfold id
    | match goal with
      | |- context [mbind _ ?o] => destruct o; cbn [mbind option_bind default]
      end
    | case_match ].

Lemma act_keeps_latch (a : Action) (st : Client) :
  redirected (act a st) = redirected st ∧ role (act a st) = role st.
Proof.
  unfold act, articleControl, logControl, openComposer, cancelComposer,
    sendNarrativeAndAdvance, cancelComposer, restart, startEditMessage,
    saveEditMessage.
  destruct a; split; crush_cells.
Qed.

Lemma step_keeps_role (i : Input) (st : Client) : role (step i st) = role st.
Proof.
  unfold step, afterRender. cbn [role set_channel set_sharedRef].
  destruct i; cbn [handle]; try apply act_keeps_latch;
    unfold onScenario, onSubscribed, onPresenceSync, onPeersTimer,
      onStateUpdate, onStateRequest, onMsgAdd, onMsgUpdate;
    crush_cells.
Qed.

Lemma step_latch (i : Input) (st : Client) :
  redirected (step i st) = redirected st ∨
  (∃ reg, i = PresenceSync reg) ∧ role st = P1 ∧ redirected (step i st) = true.
Proof.
  unfold step, afterRender. cbn [redirected set_channel set_sharedRef].
  destruct i as [| | |reg| | | | | |a]; cbn [handle];
    try (left; apply act_keeps_latch);
    try (left;
         unfold onScenario, onSubscribed, onPeersTimer,
           onStateUpdate, onStateRequest, onMsgAdd, onMsgUpdate;
         by crush_cells).
  destruct (channel st); [|by left]. unfold onPresenceSync.
  destruct (bool_decide (role st = P1)) eqn:Hr; cbn [andb]; [|by left].
  apply bool_decide_eq_true in Hr.
  destruct (_ && _); [|by left]. right. split; [by exists reg|]. by split.
Qed.

Lemma reachable_role (r : Turn) (name : jsstring) (st : Client) :
  reachable r name st → role st = r.
Proof. induction 1 as [|i st _ IH]; [done|]. by rewrite step_keeps_role. Qed.

(** X15. The duplicate-Primary redirect is a latch. Once set it stays set
    whatever happens; a Secondary never sets it; a Primary that sees more
    than one identity under its role sets it on that sync without taking
    the roster, and on every later sync it takes the roster and leaves
    the latch alone. *)
Theorem redirect_latch :
  (∀ i st, redirected st = true → redirected (step i st) = true) ∧
  (∀ name st, reachable P2 name st → redirected st = false) ∧
  (∀ reg st,
     channel st = true → role st = P1 → redirected st = false →
     (1 < p1Count reg)%nat →
     let st' := step (PresenceSync reg) st in
     redirected st' = true ∧ peers st' = peers st ∧
     pendingPeers st' = pendingPeers st ∧
     ∀ reg', redirected (step (PresenceSync reg') st') = true ∧
             pendingPeers (step (PresenceSync reg') st') = Some (peerLabel <$> reg')).
Proof.
  split; [|split].
  - intros i st Hr. destruct (step_latch i st) as [->|(_ & _ & ->)]; done.
  - intros name st Hr. induction Hr as [|i st Hr IH]; [done|].
    destruct (step_latch i st) as [->|(_ & Hrole & _)]; [done|].
    by rewrite (reachable_role _ _ _ Hr) in Hrole.
  - intros reg st Hch Hrole Hred Hcount. cbv zeta.
    assert (step (PresenceSync reg) st =
            afterRender (set_redirected true st)) as ->.
    { unfold step. cbn [handle]. rewrite Hch. unfold onPresenceSync.
      rewrite Hrole, Hred. apply Nat.ltb_lt in Hcount. by rewrite Hcount. }
    split; [done|]. split; [done|]. split; [done|]. intros reg'.
    assert (∀ s, channel s = true → redirected s = true →
              redirected (step (PresenceSync reg') s) = true ∧
              pendingPeers (step (PresenceSync reg') s) = Some (peerLabel <$> reg'))
      as Hlater.
    { intros s Hc Hr. unfold step, afterRender. cbn [handle]. rewrite Hc.
      unfold onPresenceSync. rewrite Hr. cbn [negb]. rewrite andb_false_r.
      by split. }
    apply Hlater; [|done].
    unfold afterRender. cbn [channel set_channel set_redirected set_sharedRef].
    by rewrite Hch.
Qed.

Lemma redirect_latch_witness :
  let p1 := step (ScenarioLoaded demoScenario) (initClient P1 (js "Jihu")) in
  let reg : Presence := [(js "P1", [Some (js "Jihu"); Some (js "Intruder")])] in
  redirected (step (PresenceSync reg) p1) = true ∧
  redirected (step Subscribed (step (PresenceSync reg) p1)) = true ∧
  redirected (step (PresenceSync reg)
                (step (ScenarioLoaded demoScenario) (initClient P2 (js "Mina")))) = false.
Proof.
  intros p1 reg. destruct redirect_latch as (H1 & H2 & H3). split; [|split].
  - assert ((1 < p1Count reg)%nat) as Hcount by (vm_compute; lia).
    destruct (H3 reg p1 eq_refl eq_refl eq_refl Hcount) as [H _]. exact H.
  - apply H1. vm_compute. reflexivity.
  - apply (H2 (js "Mina")). repeat constructor.
Defined.

Lemma startsWith_app (p s : jsstring) : startsWith (p ++ s) p = true.
Proof. induction p as [|a p IH]; [done|]. simpl. by rewrite N.eqb_refl. Qed.

Lemma includes_unfold (s p : jsstring) :
  includes s p =
  startsWith s p || match s with [] => false | _ :: s' => includes s' p end.
Proof. by destruct s. Qed.

Lemma includes_app (a b c : jsstring) : includes (a ++ b ++ c) b = true.
Proof.
  induction a as [|x a IH].
  - rewrite includes_unfold. cbn [app]. by rewrite startsWith_app.
  - rewrite includes_unfold. cbn [app]. rewrite IH. apply orb_true_r.
Qed.

Lemma peerLabel_named (r n : jsstring) (rest : list (option jsstring)) :
  trim n ≠ [] → peerLabel (r, Some n :: rest) = trim n ++ js "(" ++ r ++ js ")".
Proof. unfold peerLabel. cbn [fst snd]. by destruct (trim n). Qed.

Lemma existsb_label (reg : Presence) (r n : jsstring) rest :
  (r, Some n :: rest) ∈ reg → trim n ≠ [] →
  existsb (λ p, includes p (js "(" ++ r ++ js ")")) (peerLabel <$> reg) = true.
Proof.
  intros Hin Hn. apply existsb_exists.
  exists (peerLabel (r, Some n :: rest)). split.
  - apply list_elem_of_In, list_elem_of_fmap_2, Hin.
  - rewrite peerLabel_named by done.
    pose proof (includes_app (trim n) (js "(" ++ r ++ js ")") []) as H.
    by rewrite app_nil_r in H.
Qed.

(** X16. The Primary's waiting gate. A Primary with an empty roster sees
    the waiting notice, where no control does anything. Once a presence
    sync that is not a duplicate-Primary alarm lists an identity with a
    non-blank name under each of the two roles, the roster installed by
    the debounce timer is the list of labels of the registry and counts
    as both players connected. *)
Theorem waiting_gate (st : Client) :
  (role st = P1 → peers st = [] →
   screen st = WaitingForP2 ∧ ∀ a, act a st = st) ∧
  (∀ (reg : Presence) n1 rest1 n2 rest2,
     channel st = true →
     (role st = P2 ∨ redirected st = true ∨ (p1Count reg ≤ 1)%nat) →
     (js "P1", Some n1 :: rest1) ∈ reg → trim n1 ≠ [] →
     (js "P2", Some n2 :: rest2) ∈ reg → trim n2 ≠ [] →
     let st' := step PeersTimer (step (PresenceSync reg) st) in
     peers st' = peerLabel <$> reg ∧ bothPlayersConnected st' = true).
Proof.
  split.
  - intros Hr Hp.
    assert (screen st = WaitingForP2) as Hs.
    { unfold screen, bothPlayersConnected. by rewrite Hr, Hp. }
    split; [done|]. intros a. unfold act. by rewrite Hs.
  - intros reg n1 rest1 n2 rest2 Hch Hno H1 Hn1 H2 Hn2. cbv zeta.
    assert (step (PresenceSync reg) st =
            afterRender (set_pendingPeers (Some (peerLabel <$> reg)) st)) as ->.
    { unfold step. cbn [handle]. rewrite Hch. unfold onPresenceSync.
      assert (bool_decide (role st = P1) && (1 <? p1Count reg)%nat
              && negb (redirected st) = false) as ->; [|done].
      destruct Hno as [Hr|[Hr|Hc]].
      - rewrite Hr. done.
      - rewrite Hr. apply andb_false_r.
      - apply Nat.ltb_ge in Hc. rewrite Hc. by rewrite andb_false_r. }
    assert (peers (step PeersTimer
                     (afterRender (set_pendingPeers (Some (peerLabel <$> reg)) st)))
            = peerLabel <$> reg) as Hpeers.
    { unfold step, afterRender. cbn [handle channel set_channel set_sharedRef
        set_pendingPeers]. rewrite Hch. cbn [orb]. unfold onPeersTimer. done. }
    split; [done|]. unfold bothPlayersConnected. rewrite Hpeers.
    change (js "(P1)") with (js "(" ++ js "P1" ++ js ")").
    change (js "(P2)") with (js "(" ++ js "P2" ++ js ")").
    by rewrite (existsb_label reg _ n1 rest1), (existsb_label reg _ n2 rest2).
Qed.

Lemma waiting_gate_witness :
  let p1 := step (ScenarioLoaded demoScenario) (initClient P1 (js "Jihu")) in
  let reg : Presence := [(js "P1", [Some (js "Jihu")]); (js "P2", [Some (js " Mina ")])] in
  screen p1 = WaitingForP2 ∧
  bothPlayersConnected (step PeersTimer (step (PresenceSync reg) p1)) = true.
Proof.
  intros p1 reg. split.
  - exact (proj1 (proj1 (waiting_gate p1) eq_refl eq_refl)).
  - assert ((js "P1", [Some (js "Jihu")]) ∈ reg) as H1
      by (apply elem_of_cons; by left).
    assert ((js "P2", [Some (js " Mina ")]) ∈ reg) as H2
      by (apply elem_of_cons; right; apply elem_of_cons; by left).
    assert ((p1Count reg ≤ 1)%nat) as Hc by (vm_compute; lia).
    destruct (proj2 (waiting_gate p1) reg (js "Jihu") [] (js " Mina ") []
                eq_refl (or_intror (or_intror Hc)) H1
                ltac:(vm_compute; discriminate) H2
                ltac:(vm_compute; discriminate)) as [_ H].
    exact H.
Defined.

(** ** Lines outside a scene, and states outside the scenario *)

Lemma parseLine_before_marker (raw : jsstring) :
  isMarker (trim raw) = false → parseLine (mkP [] None) raw = mkP [] None.
Proof.
  intros [Hs He]%isMarker_scene_or_ending. unfold parseLine.
  destruct (trim raw) as [|x line]; [done|]. rewrite Hs, He.
  by destruct (startsWith (x :: line) (js ">")).
Qed.

(** X17. Lines outside a scene are dropped without a trace: whatever
    stands before the first marker line of a script does not reach the
    result, and a line that opens with the choice marker while no scene,
    or an ending, is being accumulated leaves the parser state as it
    was. *)
Theorem lines_outside_scene_dropped :
  (∀ pre rest : list jsstring,
     Forall (λ raw, isMarker (trim raw) = false) pre →
     foldl parseLine (mkP [] None) (pre ++ rest) =
     foldl parseLine (mkP [] None) rest) ∧
  (∀ (st : pstate) (raw : jsstring),
     startsWith (trim raw) (js ">") = true →
     (∀ i body choices, p_current st ≠ Some (LinearScene i body choices)) →
     parseLine st raw = st).
Proof.
  split.
  - intros pre rest Hpre. rewrite foldl_app. f_equal.
    induction Hpre as [|raw pre Hraw _ IH]; [done|].
    simpl. by rewrite parseLine_before_marker.
  - intros st raw (rest & Hl)%startsWith_gt Hcur. unfold parseLine. rewrite Hl.
    change (startsWith (62%N :: rest) (js "#scene ")) with false.
    change (startsWith (62%N :: rest) (js "#ending ")) with false.
    change (startsWith (62%N :: rest) (js ">")) with true. cbv iota.
    destruct (p_current st) as [[i body choices|]|] eqn:E; try done.
    by destruct (Hcur i body choices).
Qed.

Lemma lines_outside_scene_dropped_witness :
  foldl parseLine (mkP [] None)
    ([js "A preface"; js "> Go -> nowhere"] ++ [js "#scene start"; js "Hello"]) =
  foldl parseLine (mkP [] None) [js "#scene start"; js "Hello"] ∧
  parseLine (mkP [] (Some (Ending (js "left") [] []))) (js "> Go -> on") =
  mkP [] (Some (Ending (js "left") [] [])).
Proof.
  split.
  - apply (proj1 lines_outside_scene_dropped).
    repeat constructor.
  - apply (proj2 lines_outside_scene_dropped); [vm_compute; reflexivity|].
    intros i body choices. discriminate.
Defined.

Lemma find_scene_None (scenes : list Scene) (i : jsstring) :
  (∀ s, s ∈ scenes → scene_id s ≠ i) → find_scene scenes i = None.
Proof.
  intros H. unfold find_scene. induction scenes as [|s scenes IH]; [done|].
  simpl. rewrite bool_decide_false by (apply H, elem_of_cons; by left).
  apply IH. intros s' Hs'. apply H, elem_of_cons. by right.
Qed.

(** X18. A state outside the scenario stalls the room. The in-session
    loader installs any typed scenario, also one whose [start] names no
    scene, and nothing checks the target of a choice. When the scene id of
    the held state names no scene of the scenario, the client shows the
    waiting or the connecting notice and no control does anything; only a
    received update can move it on. *)
Theorem dangling_scene_stalls (st : Client) :
  (∀ data, scenario (step (ScenarioLoaded data) st) = Some data) ∧
  (∀ sc sh,
     scenario st = Some sc → shared st = Some sh →
     (∀ s, s ∈ sc_scenes sc → scene_id s ≠ sceneId sh) →
     (screen st = WaitingForP2 ∨ screen st = Connecting) ∧
     ∀ a, step (User a) st = afterRender st).
Proof.
  split.
  - intros data. unfold step, afterRender.
    cbn [handle scenario set_channel set_sharedRef]. unfold onScenario.
    assert (Room.validateScenario (scenario_val data) = Accepted) as ->; [|done].
    apply room_validate. destruct (scenario_val_fields data) as (f & -> & ? & ? & ?).
    by eexists _, _, _, _.
  - intros sc sh Hsc Hsh Hdang.
    assert (screen st = WaitingForP2 ∨ screen st = Connecting) as Hs.
    { unfold screen, currentScene. destruct (_ && _); [by left|].
      destruct (loading st); [by right|]. rewrite Hsc, Hsh.
      rewrite find_scene_None by done. by right. }
    split; [done|]. intros a. unfold step. cbn [handle]. unfold act.
    by destruct Hs as [-> | ->].
Qed.

Lemma dangling_scene_stalls_witness :
  let st := demoClient (js "nowhere") 2 in
  step (User (ClickChoice 0)) st = afterRender st ∧
  step (User ClickRestart) st = afterRender st.
Proof.
  intros st.
  assert (∀ s, s ∈ sc_scenes demoScenario → scene_id s ≠ js "nowhere") as Hd.
  { intros s Hs. vm_compute in Hs.
    apply elem_of_cons in Hs as [->|Hs]; [discriminate|].
    apply elem_of_cons in Hs as [->|Hs]; [discriminate|].
    by apply elem_of_nil in Hs. }
  destruct (proj2 (dangling_scene_stalls st) demoScenario
              {| sceneId := js "nowhere"; vars := ∅; turn := P1; version := 2 |}
              eq_refl eq_refl Hd) as [_ H].
  split; apply H.
Defined.

(** X19. On the solo page a choice whose target names no scene of the
    scenario, or is empty, ends the play: the page shows the problem
    notice, on which no control is offered, so neither [back] nor the
    restart nor an upload can be reached from there. *)
Theorem solo_dangling_next (st : SoloState) (sc : Scenario) i body choices
    (n : nat) (c : Choice) :
  soloScreen st = SoloPlaying sc (LinearScene i body choices) →
  choices !! n = Some c →
  (∀ s, s ∈ sc_scenes sc → scene_id s ≠ c_next c) →
  let st' := soloStep (SClickChoice n) st in
  s_sceneId st' = Some (c_next c) ∧
  soloScreen st' = SoloProblem ∧
  soloStep SClickBack st' = st' ∧ soloStep SClickRestart st' = st' ∧
  soloStep SClickReset st' = st' ∧
  (∀ m, soloStep (SClickChoice m) st' = st') ∧
  (∀ name text, soloStep (SUploadTxt name text) st' = st').
Proof.
  intros Hscr Hc Hdang. cbv zeta.
  assert (soloStep (SClickChoice n) st = go (c_next c) (c_effects c) st) as ->.
  { cbn [soloStep]. by rewrite Hscr, Hc. }
  apply soloScreen_playing in Hscr as (Hl & He & Hsc & _).
  assert (soloScreen (go (c_next c) (c_effects c) st) = SoloProblem) as Hp.
  { unfold soloScreen, go. cbn [s_loading s_error s_scenario s_sceneId].
    rewrite Hl, He, Hsc. destruct (c_next c) as [|x t] eqn:En; [done|].
    by rewrite find_scene_None. }
  split; [done|]. split; [done|].
  repeat split; intros; cbn [soloStep]; by rewrite Hp.
Qed.

Lemma solo_dangling_next_witness :
  let sc := buildScenario (js "d.txt")
              (js "#scene start" ++ [10%N] ++ js "> Go -> nowhere") in
  let st := soloStep (SLoaded sc) soloInit in
  soloScreen (soloStep (SClickChoice 0) st) = SoloProblem.
Proof.
  intros sc st.
  assert (∀ s, s ∈ sc_scenes sc → scene_id s ≠ js "nowhere") as Hd.
  { intros s Hs. vm_compute in Hs.
    apply elem_of_cons in Hs as [->|Hs]; [discriminate|].
    by apply elem_of_nil in Hs. }
  destruct (solo_dangling_next st sc (js "start") []
              [mkChoice (js "Go") (js "nowhere") None] 0
              (mkChoice (js "Go") (js "nowhere") None)
              ltac:(vm_compute; reflexivity) eq_refl Hd) as (_ & H & _).
  exact H.
Defined.

(** X20. The restart of an ending is offered to either peer, whoever
    holds the turn, and reaches the other one: it puts the session back to
    the start scene with no variables, the Primary to move and the version
    one higher, broadcasts that state, and a peer whose version is not
    above the previous one adopts it. *)
Theorem restart_converges (p1 p2 : Client) (sc : Scenario)
    (loc loc2 : SharedState) :
  channel p1 = true → channel p2 = true →
  screen p1 = EndingScreen → scenario p1 = Some sc →
  shared p1 = Some loc → shared p2 = Some loc2 →
  version loc2 ≤ version loc →
  let next := {| sceneId := sc_start sc; vars := ∅; turn := P1;
                 version := version loc + 1 |} in
  let p1' := step (User ClickRestart) p1 in
  shared p1' = Some next ∧ outbox p1' = outbox p1 ++ [StateUpdate next] ∧
  shared (step (RecvStateUpdate next) p2) = Some next.
Proof.
  intros Hc1 Hc2 Hscr Hsc Hs1 Hs2 Hv. cbv zeta.
  assert (step (User ClickRestart) p1 = afterRender (restart p1)) as ->.
  { unfold step. cbn [handle]. unfold act, articleControl. by rewrite Hscr. }
  unfold afterRender, restart. rewrite Hsc, Hs1.
  cbn [shared outbox set_channel set_sharedRef].
  rewrite shared_send. split; [done|]. split.
  - by rewrite outbox_send.
  - unfold step, afterRender. cbn [shared set_channel set_sharedRef handle].
    rewrite Hc2. unfold onStateUpdate. cbn [shared set_shared]. rewrite Hs2.
    cbn [adopt version].
    by assert ((version loc + 1 >? version loc2) = true) as -> by lia.
Qed.

Lemma restart_converges_witness :
  let p2 := demoClient (js "left") 3 in
  let p1 := demoClient (js "left") 3 in
  shared (step (RecvStateUpdate
                  {| sceneId := js "start"; vars := ∅; turn := P1; version := 4 |}) p1)
  = shared (step (User ClickRestart) p2).
Proof.
  intros p2 p1.
  destruct (restart_converges p2 p1 demoScenario
              {| sceneId := js "left"; vars := ∅; turn := P1; version := 3 |}
              {| sceneId := js "left"; vars := ∅; turn := P1; version := 3 |}
              eq_refl eq_refl ltac:(vm_compute; reflexivity) eq_refl eq_refl eq_refl
              ltac:(simpl; lia)) as (H1 & _ & H3).
  rewrite H1. exact H3.
Defined.

(** ** The ledger and the parser on names that meet no inherited member *)

Lemma plainFor_check (vs e : gmap jsstring Z) :
  forallb (λ kv : jsstring * Z, bool_decide (inherited kv.1 = None))
          (map_to_list e) = true →
  plainFor vs e.
Proof.
  intros H k [d Hk] _. rewrite forallb_forall in H.
  apply elem_of_map_to_list, list_elem_of_In in Hk.
  specialize (H _ Hk). by apply bool_decide_eq_true in H.
Qed.

Lemma plainEffects_check (e : gmap jsstring Z) :
  forallb (λ kv : jsstring * Z, bool_decide (inherited kv.1 = None))
          (map_to_list e) = true →
  plainEffects (Some e).
Proof.
  intros H e' k [= <-] Hk. by apply (plainFor_check ∅ e H k Hk).
Qed.

(** X21. On a ledger of numbers, and for effects none of whose keys is
    both absent from [vars] and the name of an inherited member, the room
    and the solo page compute the ledger of the specification: every key
    of [effects] maps to its value in [vars], 0 when absent, plus the
    delta, every other key keeps what it has, and the values are numbers
    again. *)
Theorem applyEffects_plain_names (vs e : gmap jsstring Z) :
  plainFor vs e →
  applyEffects (Num <$> vs) (Some e) = Num <$> ledgerApply vs e ∧
  solo_applyEffects (Some e) (Num <$> vs) = Num <$> ledgerApply vs e ∧
  (∀ k, applyEffects (Num <$> vs) (Some e) !! k =
        match e !! k with
        | Some d => Some (Num (default 0 (vs !! k) + d))
        | None => Num <$> vs !! k
        end).
Proof.
  intros Hp. pose proof (applyEffects_ledgerApply vs e Hp) as H.
  split; [exact H|]. split; [exact H|].
  intros k. rewrite H, lookup_fmap, ledgerApply_lookup.
  by destruct (e !! k).
Qed.

Lemma applyEffects_plain_names_witness :
  applyEffects {[js "courage" := Num 2]}
               (Some {[js "courage" := 1; js "fear" := -1]}) =
  {[js "courage" := Num 3; js "fear" := Num (-1)]}.
Proof.
  assert (plainFor {[js "courage" := 2]}
                   {[js "courage" := 1; js "fear" := -1]}) as Hp.
  { apply plainFor_check. vm_compute. reflexivity. }
  pose proof (proj1 (applyEffects_plain_names _ _ Hp)) as H.
  etransitivity; [etransitivity; [|exact H]|]; vm_compute; reflexivity.
Defined.

(** X22. On a ledger of numbers, effects whose keys name no inherited
    member commute: two of them give the same [vars] in either order, and
    a list of them gives the same [vars] in every order. *)
Theorem applyEffects_plain_commute (vs : gmap jsstring Z) :
  (∀ e1 e2, plainEffects e1 → plainEffects e2 →
     applyEffects (applyEffects (Num <$> vs) e1) e2 =
     applyEffects (applyEffects (Num <$> vs) e2) e1) ∧
  (∀ l1 l2, Forall plainEffects l1 → l1 ≡ₚ l2 →
     foldl applyEffects (Num <$> vs) l1 = foldl applyEffects (Num <$> vs) l2).
Proof.
  split.
  - intros e1 e2 H1 H2.
    rewrite (applyEffects_ledgerApplyOpt vs e1 H1).
    rewrite (applyEffects_ledgerApplyOpt vs e2 H2).
    rewrite (applyEffects_ledgerApplyOpt _ e2 H2).
    rewrite (applyEffects_ledgerApplyOpt _ e1 H1).
    by rewrite ledgerApplyOpt_comm.
  - intros l1 l2 H1 Hp.
    assert (Forall plainEffects l2) as H2 by (by rewrite <- Hp).
    rewrite !foldl_applyEffects_ledger by done.
    by rewrite (foldl_ledgerApplyOpt_perm l1 l2 Hp).
Qed.

Lemma applyEffects_plain_commute_witness :
  let a : option (gmap jsstring Z) := Some {[js "courage" := 1]} in
  let b : option (gmap jsstring Z) := Some {[js "courage" := -1; js "fear" := 1]} in
  let c : option (gmap jsstring Z) := None in
  foldl applyEffects {[js "fear" := Num 2]} [a; b; c] =
  foldl applyEffects {[js "fear" := Num 2]} [c; b; a].
Proof.
  intros a b c.
  assert ([a; b; c] ≡ₚ [c; b; a]) as Hp.
  { change [c; b; a] with (reverse [a; b; c]). symmetry. apply reverse_Permutation. }
  assert (Forall plainEffects [a; b; c]) as Hf.
  { repeat constructor.
    - apply plainEffects_check. vm_compute. reflexivity.
    - apply plainEffects_check. vm_compute. reflexivity.
    - intros e k H. discriminate. }
  pose proof (proj2 (applyEffects_plain_commute {[js "fear" := 2]})
                [a; b; c] [c; b; a] Hf Hp) as H.
  rewrite map_fmap_singleton in H. exact H.
Defined.

(** X23. A choice line that matches the pattern adds one choice to the
    scene being accumulated, with the label, the target and the effects
    object built from the tokens of the effects text. A token is either a
    sign followed by a name or a bare name, with -1 under a leading [-]
    and +1 otherwise (leading [+], or no sign). Every entry of the
    effects object was assigned by a token; a token's assignment stands
    unless a later token names the same variable or the name is
    [__proto__], which never becomes an entry. A line that opens with the
    choice marker and does not match the pattern leaves the parser state
    as it was. *)
Theorem choice_line_own_effects :
  (∀ eff : jsstring,
     parseEffToken eff =
     match eff with
     | [] => None
     | x :: rest =>
         if is_sign x then
           match rest with
           | y :: _ =>
               if is_name y
               then Some (takeClass is_name rest, if (x =? 45)%N then -1 else 1)
               else None
           | [] => None
           end
         else if is_name x then Some (takeClass is_name eff, 1)
         else None
     end) ∧
  (∀ (st : pstate) (raw : jsstring) i body choices t next effStr,
     p_current st = Some (LinearScene i body choices) →
     startsWith (trim raw) (js ">") = true →
     matchChoice (trim raw) = Some (t, next, effStr) →
     parseLine st raw =
       mkP (p_scenes st)
         (Some (LinearScene i body
            (choices ++ [mkChoice t next (nonEmptyEffects (parseEffects effStr))]))) ∧
     (∀ k d, parseEffects effStr !! k = Some d →
        ∃ tok, tok ∈ effTokens effStr ∧ parseEffToken tok = Some (k, d)) ∧
     (∀ l1 tok l2 k d,
        effTokens effStr = l1 ++ tok :: l2 →
        parseEffToken tok = Some (k, d) →
        (∀ t' d', t' ∈ l2 → parseEffToken t' ≠ Some (k, d')) →
        k ≠ js "__proto__" →
        parseEffects effStr !! k = Some d) ∧
     parseEffects effStr !! js "__proto__" = None) ∧
  (∀ (st : pstate) (raw : jsstring),
     startsWith (trim raw) (js ">") = true → matchChoice (trim raw) = None →
     parseLine st raw = st).
Proof.
  split; [apply parseEffToken_spec|]. split; [|apply parseLine_choice_dropped].
  intros st raw i body choices t next effStr Hc Hs Hm. split; [|split; [|split]].
  - by rewrite (parseLine_choice _ _ _ _ _ Hc Hs), Hm.
  - intros k d. rewrite parseEffects_tokens. apply foldl_effStep_origin.
  - intros l1 tok l2 k d Hl Htok Hl2 Hk. rewrite parseEffects_tokens, Hl.
    by apply foldl_effStep_last.
  - rewrite parseEffects_tokens. by apply foldl_effStep_proto.
Qed.

Lemma choice_line_own_effects_witness :
  let st := mkP [] (Some (LinearScene (js "start") [js "Hello"] [])) in
  parseLine st (js "  > Go left -> left (+courage, -fear) ") =
    mkP [] (Some (LinearScene (js "start") [js "Hello"]
      [mkChoice (js "Go left") (js "left")
         (Some {[js "courage" := 1; js "fear" := -1]})])) ∧
  parseEffects (Some (js "+a -a")) !! js "a" = Some (-1) ∧
  (∃ tok, tok ∈ effTokens (Some (js "+a -a")) ∧
          parseEffToken tok = Some (js "a", -1)) ∧
  parseLine st (js "> Go left") = st.
Proof.
  intros st. split; [|split; [|split]].
  - destruct (proj1 (proj2 choice_line_own_effects) st
                (js "  > Go left -> left (+courage, -fear) ")
                (js "start") [js "Hello"] [] (js "Go left") (js "left")
                (Some (js "+courage, -fear")) eq_refl
                ltac:(vm_compute; reflexivity) ltac:(vm_compute; reflexivity))
      as [H _].
    rewrite H. vm_compute. reflexivity.
  - destruct (proj1 (proj2 choice_line_own_effects) st
                (js "> x -> y (+a -a)")
                (js "start") [js "Hello"] [] (js "x") (js "y")
                (Some (js "+a -a")) eq_refl
                ltac:(vm_compute; reflexivity) ltac:(vm_compute; reflexivity))
      as (_ & _ & H & _).
    apply (H [js "+a"] (js "-a") [] (js "a") (-1)).
    + vm_compute. reflexivity.
    + vm_compute. reflexivity.
    + intros t' d' Ht'. by apply elem_of_nil in Ht'.
    + vm_compute. discriminate.
  - destruct (proj1 (proj2 choice_line_own_effects) st
                (js "> x -> y (+a -a)")
                (js "start") [js "Hello"] [] (js "x") (js "y")
                (Some (js "+a -a")) eq_refl
                ltac:(vm_compute; reflexivity) ltac:(vm_compute; reflexivity))
      as (_ & H & _).
    apply (H (js "a") (-1)). vm_compute. reflexivity.
  - apply (proj2 (proj2 choice_line_own_effects) st (js "> Go left"));
      vm_compute; reflexivity.
Defined.
